(** * Graham scan: a shallow embedding of [src/src/index.ts]

    The development follows the TypeScript source: [Coord2D] and its [same]
    method, [compareAngle] with its [REGIONS] table, and [findConvexHull]
    with its pivot selection ([reduce]), its angular [sort] and its stack
    scan (a [for ... of] loop around a [while] loop that pops); then the
    click handler that toggles a point of the global [points] array, and
    [drawConvexHull] as the sequence of drawing calls it makes.

    Numbers.  The source computes on JavaScript numbers (binary64).  The
    points the program handles are grid points with integer coordinates;
    coordinates are modelled as [Z], with exact [-] and [*].  The source
    agrees with that as long as every difference, product and difference
    of products it forms is an integer of absolute value at most 2^53,
    which is the case for coordinates of absolute value at most 2^25
    ([bounded], [compareAngle_representable]); beyond, the products of
    [compareAngle] round.  The theorems that depend on the value of
    [y1 * x2 - y2 * x1] are stated for [bounded] points; comparisons,
    [===] and the signs of differences are exact on all integers. *)

From Stdlib Require Import String.
From Stdlib Require Import ZArith List Bool Lia Permutation Sorted.
Import ListNotations.
Open Scope Z_scope.

(** ** Outcomes of a JavaScript computation

    A computation of the source either returns a value or throws
    ([TypeError]: a property read on [undefined], [reduce] of an empty
    array without initial value).  [OutOfFuel] belongs to the model only:
    the [while] loop is run with a bound on its number of iterations. *)

Inductive outcome (A : Type) : Type :=
| Ok (a : A)
| TypeError
| OutOfFuel.

Arguments Ok {A} a.
Arguments TypeError {A}.
Arguments OutOfFuel {A}.

Definition bind {A B : Type} (m : outcome A) (k : A -> outcome B) : outcome B :=
  match m with
  | Ok a => k a
  | TypeError => TypeError
  | OutOfFuel => OutOfFuel
  end.

Notation "v <- m ;; k" := (bind m (fun v => k))
  (at level 61, m at next level, right associativity).

(** ** class Coord2D *)

Record Coord2D : Type := mkCoord2D { x : Z; y : Z }.

(** [same(other)]: [this.x === other.x && this.y === other.y]. *)
Definition same (this other : Coord2D) : bool :=
  (x this =? x other) && (y this =? y other).

(** ** Arrays

    An array is a list in index order.  [arr[i]] is [undefined] out of
    range, which is [None] here; a method call or a property read on it
    throws. *)

Definition array_get {A : Type} (arr : list A) (i : Z) : option A :=
  if i <? 0 then None else nth_error arr (Z.to_nat i).

Definition defined {A : Type} (o : option A) : outcome A :=
  match o with
  | Some a => Ok a
  | None => TypeError
  end.

Definition array_length {A : Type} (arr : list A) : Z := Z.of_nat (length arr).

Definition push {A : Type} (arr : list A) (a : A) : list A := arr ++ [a].

Definition pop {A : Type} (arr : list A) : list A := removelast arr.

(** [Array.prototype.findIndex]: the index of the first element that
    satisfies the predicate, [-1] when there is none. *)
Fixpoint findIndex_from {A : Type} (pred : A -> bool) (i : Z) (arr : list A) : Z :=
  match arr with
  | [] => -1
  | a :: arr' => if pred a then i else findIndex_from pred (i + 1) arr'
  end.

Definition findIndex {A : Type} (pred : A -> bool) (arr : list A) : Z :=
  findIndex_from pred 0 arr.

(** [Array.prototype.reduce] without an initial value: the first element
    is the initial accumulator; on an empty array it throws. *)
Definition reduce {A : Type} (f : A -> A -> A) (arr : list A) : outcome A :=
  match arr with
  | [] => TypeError
  | a :: arr' => Ok (fold_left f arr' a)
  end.

(** [Array.prototype.sort] with a comparator.  The language fixes the
    result, not the algorithm: the sort is stable, and for a consistent
    comparator the result is the stable sorted rearrangement of the
    array.  It is modelled by the stable insertion sort: an element goes
    before the first later element that it does not exceed. *)
Fixpoint sort_insert {A : Type} (cmp : A -> A -> Z) (a : A) (sorted : list A) : list A :=
  match sorted with
  | [] => [a]
  | b :: sorted' =>
      if cmp a b <=? 0 then a :: b :: sorted' else b :: sort_insert cmp a sorted'
  end.

Fixpoint sort {A : Type} (cmp : A -> A -> Z) (arr : list A) : list A :=
  match arr with
  | [] => []
  | a :: arr' => sort_insert cmp a (sort cmp arr')
  end.

(** The order that a comparator defines, and its equivalence. *)
Definition cmp_le {A : Type} (cmp : A -> A -> Z) (a b : A) : Prop := cmp a b <= 0.

Definition cmp_equiv {A : Type} (cmp : A -> A -> Z) (a b : A) : bool :=
  (cmp a b <=? 0) && (cmp b a <=? 0).

(** [Math.sign] on integers. *)
Definition Math_sign (n : Z) : Z := Z.sgn n.

(** ** compareAngle *)

Definition REGIONS : list (Z * Z) :=
  [(0, 0); (1, 0); (1, 1); (0, 1); (-1, 1); (-1, 0); (-1, -1); (0, -1); (1, -1)].

(** [REGIONS.findIndex(region => region[0] === Math.sign(vx) &&
    region[1] === Math.sign(vy))], the expression that defines
    [regionIdx1] and [regionIdx2]. *)
Definition regionIdx (vx vy : Z) : Z :=
  findIndex (fun region => (fst region =? Math_sign vx) && (snd region =? Math_sign vy)) REGIONS.

Definition compareAngle (base1 coord1 base2 coord2 : Coord2D) : Z :=
  let x1 := x coord1 - x base1 in
  let y1 := y coord1 - y base1 in
  let x2 := x coord2 - x base2 in
  let y2 := y coord2 - y base2 in
  let regionIdx1 := regionIdx x1 y1 in
  let regionIdx2 := regionIdx x2 y2 in
  if negb (regionIdx1 =? regionIdx2) then Math_sign (regionIdx1 - regionIdx2)
  else Math_sign (y1 * x2 - y2 * x1).

(** The order of the nine sign-pair regions as the specification lists
    it: [(0,0) < (1,0) < (1,1) < (0,1) < (-1,1) < (-1,0) < (-1,-1) <
    (0,-1) < (1,-1)].  [region_rank vx vy] is the position of the sign
    pair of [(vx, vy)] in that enumeration. *)
Definition region_rank (vx vy : Z) : Z :=
  match vx ?= 0, vy ?= 0 with
  | Eq, Eq => 0
  | Gt, Eq => 1
  | Gt, Gt => 2
  | Eq, Gt => 3
  | Lt, Gt => 4
  | Lt, Eq => 5
  | Lt, Lt => 6
  | Eq, Lt => 7
  | Gt, Lt => 8
  end.

(** ** findConvexHull *)

(** The callback of [coords.reduce]. *)
Definition lower_left (provBaseCoord candCoord : Coord2D) : Coord2D :=
  if (y candCoord <? y provBaseCoord)
     || ((y candCoord =? y provBaseCoord) && (x candCoord <? x provBaseCoord))
  then candCoord
  else provBaseCoord.

(** The [while (convexHull.length >= 2)] loop for one [coord]; one unit of
    fuel per evaluation of the loop condition. *)
Fixpoint while_pop (fuel : nat) (convexHull : list Coord2D) (coord : Coord2D)
  : outcome (list Coord2D) :=
  match fuel with
  | O => OutOfFuel
  | S fuel' =>
      if 2 <=? array_length convexHull then
        top <- defined (array_get convexHull (array_length convexHull - 1)) ;;
        second <- defined (array_get convexHull (array_length convexHull - 2)) ;;
        if compareAngle top coord second coord <=? 0
        then while_pop fuel' (pop convexHull) coord
        else Ok convexHull
      else Ok convexHull
  end.

(** The [for (const coord of sortedCoords)] loop. *)
Fixpoint for_of (fuel : nat) (sortedCoords convexHull : list Coord2D)
  : outcome (list Coord2D) :=
  match sortedCoords with
  | [] => Ok convexHull
  | coord :: rest =>
      top <- defined (array_get convexHull (array_length convexHull - 1)) ;;
      if same coord top then for_of fuel rest convexHull
      else
        convexHull' <- while_pop fuel convexHull coord ;;
        for_of fuel rest (push convexHull' coord)
  end.

Definition findConvexHull_fuel (fuel : nat) (coords : list Coord2D)
  : outcome (list Coord2D) :=
  if array_length coords =? 0 then Ok []
  else
    baseCoord <- reduce lower_left coords ;;
    let sortedCoords :=
      sort (fun coord1 coord2 => compareAngle baseCoord coord1 baseCoord coord2) coords in
    for_of fuel sortedCoords [baseCoord].

(** The stack never holds more points than the input has, so a [while]
    loop evaluates its condition at most [length coords] times
    (see [findConvexHull_fuel_scan]). *)
Definition findConvexHull (coords : list Coord2D) : outcome (list Coord2D) :=
  findConvexHull_fuel (length coords) coords.

Definition pt (a b : Z) : Coord2D := mkCoord2D a b.

(** ** The scan, as the specification words it

    The hull stack as a list whose head is the top.  For a candidate:
    skip it when it is coordinate-equal to the top; otherwise, while the
    stack holds at least two points and
    [compareAngle(top, candidate, second-to-top, candidate) <= 0], pop the
    top; then push the candidate.  The result is the final stack, bottom
    first. *)

Fixpoint prune (stack : list Coord2D) (cand : Coord2D) : list Coord2D :=
  match stack with
  | top :: below =>
      match below with
      | second :: _ =>
          if compareAngle top cand second cand <=? 0 then prune below cand else stack
      | [] => stack
      end
  | [] => stack
  end.

Definition scan_step (stack : list Coord2D) (cand : Coord2D) : list Coord2D :=
  match stack with
  | top :: _ => if same cand top then stack else cand :: prune stack cand
  | [] => stack
  end.

Definition scan (pivot : Coord2D) (ordered : list Coord2D) : list Coord2D :=
  rev (fold_left scan_step ordered [pivot]).

(** The pivot of a point list: a point of the list with the smallest
    y-coordinate and, among those, the smallest x-coordinate. *)
Definition is_pivot (coords : list Coord2D) (p : Coord2D) : Prop :=
  In p coords /\
  forall q, In q coords -> y p < y q \/ (y p = y q /\ x p <= x q).

(** The comparator that [findConvexHull] passes to [sort]. *)
Definition angle_cmp (baseCoord coord1 coord2 : Coord2D) : Z :=
  compareAngle baseCoord coord1 baseCoord coord2.

(** Ascending angle around [base]. *)
Definition angle_le (base : Coord2D) : Coord2D -> Coord2D -> Prop :=
  cmp_le (angle_cmp base).

(** ** Convex hulls of integer points

    A point is in the convex hull of [S] when it is a convex combination
    of points of [S]; on integer points the weights can be taken to be
    natural numbers, not all zero, the combination being multiplied by
    their sum.  A vertex of the hull of [S] is a point of [S] outside the
    hull of the other points. *)

Fixpoint weight_sum (wps : list (Z * Coord2D)) : Z :=
  match wps with
  | [] => 0
  | (w, _) :: wps' => w + weight_sum wps'
  end.

Fixpoint weighted (f : Coord2D -> Z) (wps : list (Z * Coord2D)) : Z :=
  match wps with
  | [] => 0
  | (w, p) :: wps' => w * f p + weighted f wps'
  end.

Definition in_convex_hull (S : list Coord2D) (p : Coord2D) : Prop :=
  exists wps : list (Z * Coord2D),
    Forall (fun wp => 0 <= fst wp /\ In (snd wp) S) wps /\
    0 < weight_sum wps /\
    weight_sum wps * x p = weighted x wps /\
    weight_sum wps * y p = weighted y wps.

Definition others (S : list Coord2D) (p : Coord2D) : list Coord2D :=
  filter (fun q => negb (same q p)) S.

Definition hull_vertex (S : list Coord2D) (p : Coord2D) : Prop :=
  In p S /\ ~ in_convex_hull (others S p) p.

Definition collinear (a b c : Coord2D) : Prop :=
  (x b - x a) * (y c - y a) - (y b - y a) * (x c - x a) = 0.

(** The triples of consecutive points of a closed polygon, those across
    the closing edge included. *)
Fixpoint triples (l : list Coord2D) : list (Coord2D * Coord2D * Coord2D) :=
  match l with
  | a :: l' =>
      match l' with
      | b :: c :: _ => (a, b, c) :: triples l'
      | _ => []
      end
  | [] => []
  end.

Definition cyclic_triples (hull : list Coord2D) : list (Coord2D * Coord2D * Coord2D) :=
  if (length hull <? 3)%nat then [] else triples (hull ++ firstn 2 hull).

(** ** Subsequences, and stacks that a scan leaves

    [subseq s l]: [s] is [l] with some elements left out. *)

Inductive subseq {A : Type} : list A -> list A -> Prop :=
| subseq_nil : subseq [] []
| subseq_skip (a : A) (s l : list A) : subseq s l -> subseq s (a :: l)
| subseq_keep (a : A) (s l : list A) : subseq s l -> subseq (a :: s) (a :: l).

(** A stack (top first) on which every point was pushed on the points
    below it as they are: it differs from the point below it, and the
    [while] loop for it pops nothing from the points below it. *)
Fixpoint settled (stack : list Coord2D) : Prop :=
  match stack with
  | cand :: below =>
      match below with
      | top :: _ => same cand top = false /\ prune below cand = below /\ settled below
      | [] => True
      end
  | [] => True
  end.

(** Moving and enlarging a point. *)
Definition translate (dx dy : Z) (p : Coord2D) : Coord2D :=
  mkCoord2D (x p + dx) (y p + dy).

Definition scale (k : Z) (p : Coord2D) : Coord2D :=
  mkCoord2D (k * x p) (k * y p).

Definition map_outcome {A B : Type} (f : A -> B) (m : outcome A) : outcome B :=
  match m with
  | Ok a => Ok (f a)
  | TypeError => TypeError
  | OutOfFuel => OutOfFuel
  end.

(** ** The global [points] and the click handler

    [arr.splice(start, 1)]: a negative [start] counts from the end, a
    [start] past the end is the end; one element is removed when there is
    one at that index. *)
Definition splice1 {A : Type} (arr : list A) (start : Z) : list A :=
  let actualStart :=
    if start <? 0 then Z.max (array_length arr + start) 0
    else Z.min start (array_length arr) in
  firstn (Z.to_nat actualStart) arr ++ skipn (S (Z.to_nat actualStart)) arr.

(** The click handler from [clickedCoord] on: the grid cell
    [(clickedX, clickedY)] is removed from [points] when it is there and
    added at the end when it is not.  (How the cell is computed from the
    pointer position is floating-point arithmetic and is not modelled.) *)
Definition click_toggle (points : list Coord2D) (clickedX clickedY : Z) : list Coord2D :=
  let clickedCoord := mkCoord2D clickedX clickedY in
  let idx := findIndex (fun coord => same coord clickedCoord) points in
  if idx =? -1 then push points (mkCoord2D clickedX clickedY)
  else splice1 points idx.

(** What happens to [points]: a click on a cell, or the reset button. *)
Inductive event : Type :=
| Click (clickedX clickedY : Z)
| ResetButton.

Definition handle (points : list Coord2D) (e : event) : list Coord2D :=
  match e with
  | Click clickedX clickedY => click_toggle points clickedX clickedY
  | ResetButton => []
  end.

(** [points] after a sequence of events, from its initial value
    [Array()]. *)
Definition points_after (events : list event) : list Coord2D :=
  fold_left handle events [].

(** ** drawConvexHull

    The function is modelled by the calls it makes, in order, with their
    arguments: [resetCanvas()], [drawPoint(coord, radius, fillStyle)]
    (through [drawPoints]), the assignment to [strokeStyle],
    [drawLine(coord1, coord2)] and the assignment to
    [messageLabel.textContent].  What a call paints is not modelled.  The
    message is kept by its parts: the two counts, and the operands of
    [100 * convexHull.length / coords.length] when a percentage is
    shown (its formatting by [toPrecision] is floating-point). *)
Inductive call : Type :=
| ResetCanvas
| DrawPoint (coord : Coord2D) (radius : Z) (fillStyle : string)
| SetStrokeStyle (strokeStyle : string)
| DrawLine (coord1 coord2 : Coord2D)
| SetTextContent (hullCount pointCount : Z) (percentage : option (Z * Z)).

Definition drawPoints (coords : list Coord2D) (radius : Z) (fillStyle : string) : list call :=
  map (fun coord => DrawPoint coord radius fillStyle) coords.

(** [for (let i = 0; i < convexHull.length - 1; i++)
      drawLine(convexHull[i], convexHull[i + 1])]: [count] iterations are
    left, the next one at index [i]. *)
Fixpoint draw_edges (count : nat) (i : Z) (convexHull : list Coord2D) : outcome (list call) :=
  match count with
  | O => Ok []
  | S count' =>
      coord1 <- defined (array_get convexHull i) ;;
      coord2 <- defined (array_get convexHull (i + 1)) ;;
      calls <- draw_edges count' (i + 1) convexHull ;;
      Ok (DrawLine coord1 coord2 :: calls)
  end.

(** [points] is the global array that the message reads. *)
Definition drawConvexHull (points coords : list Coord2D) : outcome (list call) :=
  convexHull <- findConvexHull coords ;;
  edges <- draw_edges (Z.to_nat (array_length convexHull - 1)) 0 convexHull ;;
  closing <-
    (if 3 <=? array_length convexHull then
       coord1 <- defined (array_get convexHull (array_length convexHull - 1)) ;;
       coord2 <- defined (array_get convexHull 0) ;;
       Ok [DrawLine coord1 coord2]
     else Ok []) ;;
  let percentage :=
    if negb (array_length coords =? 0)
    then Some (100 * array_length convexHull, array_length coords)
    else None in
  Ok ([ResetCanvas]
        ++ drawPoints coords 5 "black"
        ++ [SetStrokeStyle "black"]
        ++ drawPoints convexHull 5 "red"
        ++ edges ++ closing
        ++ [SetTextContent (array_length convexHull) (array_length points) percentage]).

(** The lines of a closed polygon as the specification of the drawing:
    one from each point to the next, and one from the last point to the
    first when there are three points or more. *)
Fixpoint chain (hull : list Coord2D) : list (Coord2D * Coord2D) :=
  match hull with
  | a :: hull' =>
      match hull' with
      | b :: _ => (a, b) :: chain hull'
      | [] => []
      end
  | [] => []
  end.

Definition outline (hull : list Coord2D) : list (Coord2D * Coord2D) :=
  match hull with
  | first :: _ :: _ :: _ => chain hull ++ [(last hull first, first)]
  | _ => chain hull
  end.

Definition lines_of (calls : list call) : list (Coord2D * Coord2D) :=
  flat_map (fun c => match c with DrawLine a b => [(a, b)] | _ => [] end) calls.

Definition draw_line (edge : Coord2D * Coord2D) : call :=
  DrawLine (fst edge) (snd edge).

(** ** The range of exact arithmetic

    A binary64 number holds every integer of absolute value at most 2^53
    exactly, and [-] and [*] on such integers are exact when their result
    is one of them.  For points whose coordinates are at most 2^25 in
    absolute value, every number that [compareAngle] forms is in that
    range. *)
Definition coordinate_bound : Z := 33554432.

Definition bounded (p : Coord2D) : Prop :=
  Z.abs (x p) <= coordinate_bound /\ Z.abs (y p) <= coordinate_bound.

Definition representable (n : Z) : Prop := Z.abs n <= 9007199254740992.

(** Concrete points and lists of points are within the bound by
    computation. *)
Ltac bounded_by_computation :=
  repeat (apply Forall_cons; [unfold bounded, coordinate_bound; simpl; lia |]);
  try apply Forall_nil;
  try (unfold bounded, coordinate_bound; simpl; lia).

(** Two vectors of the same direction: equal up to positive factors. *)
Definition same_direction (x1 y1 x2 y2 : Z) : Prop :=
  exists s t : Z, 0 < s /\ 0 < t /\ s * x1 = t * x2 /\ s * y1 = t * y2.

(** ** Examples *)

Example findConvexHull_square_centre :
  findConvexHull [pt 0 0; pt 0 10; pt 10 10; pt 10 0; pt 5 5]
  = Ok [pt 0 0; pt 10 0; pt 10 10; pt 0 10].
Proof. reflexivity. Qed.

Example findConvexHull_single : findConvexHull [pt 5 5] = Ok [pt 5 5].
Proof. reflexivity. Qed.

Example findConvexHull_two :
  findConvexHull [pt 0 0; pt 1 1] = Ok [pt 0 0; pt 1 1].
Proof. reflexivity. Qed.

Example findConvexHull_duplicates :
  findConvexHull [pt 1 1; pt 0 0; pt 1 1; pt 0 0] = Ok [pt 0 0; pt 1 1].
Proof. reflexivity. Qed.

Example cyclic_triples_4 :
  cyclic_triples [pt 0 0; pt 2 0; pt 0 2; pt 0 1]
  = [(pt 0 0, pt 2 0, pt 0 2); (pt 2 0, pt 0 2, pt 0 1);
     (pt 0 2, pt 0 1, pt 0 0); (pt 0 1, pt 0 0, pt 2 0)].
Proof. reflexivity. Qed.

(** * Properties *)

(** ** The comparator *)

Section CompareAngle.

Lemma regionIdx_rank (vx vy : Z) : regionIdx vx vy = region_rank vx vy.
Proof. destruct vx, vy; reflexivity. Qed.

Lemma region_rank_range (vx vy : Z) : 0 <= region_rank vx vy <= 8.
Proof. destruct vx, vy; cbv; split; discriminate. Qed.

Lemma region_rank_entry (vx vy : Z) :
  nth_error REGIONS (Z.to_nat (region_rank vx vy)) = Some (Z.sgn vx, Z.sgn vy).
Proof. destruct vx, vy; reflexivity. Qed.

Lemma region_rank_signs (x1 y1 x2 y2 : Z) :
  region_rank x1 y1 = region_rank x2 y2 <->
  (Z.sgn x1, Z.sgn y1) = (Z.sgn x2, Z.sgn y2).
Proof.
  destruct x1, y1, x2, y2; cbv; split; intros H; try reflexivity; discriminate H.
Qed.

Lemma region_rank_zero (vx vy : Z) : region_rank vx vy = 0 <-> vx = 0 /\ vy = 0.
Proof.
  destruct vx, vy; cbv; split; intros H; try reflexivity;
    try discriminate H; try (split; reflexivity); destruct H; congruence.
Qed.

Lemma same_iff (p q : Coord2D) : same p q = true <-> x p = x q /\ y p = y q.
Proof. unfold same. rewrite andb_true_iff, !Z.eqb_eq. reflexivity. Qed.

Lemma same_eq (p q : Coord2D) : same p q = true <-> p = q.
Proof.
  rewrite same_iff. destruct p, q; simpl. split.
  - intros [-> ->]. reflexivity.
  - intros H. injection H as -> ->. split; reflexivity.
Qed.

Lemma compareAngle_unfold (base1 coord1 base2 coord2 : Coord2D) :
  let x1 := x coord1 - x base1 in
  let y1 := y coord1 - y base1 in
  let x2 := x coord2 - x base2 in
  let y2 := y coord2 - y base2 in
  compareAngle base1 coord1 base2 coord2 =
  if region_rank x1 y1 =? region_rank x2 y2
  then Z.sgn (y1 * x2 - y2 * x1)
  else Z.sgn (region_rank x1 y1 - region_rank x2 y2).
Proof.
  intros x1 y1 x2 y2. unfold compareAngle, Math_sign. fold x1 y1 x2 y2.
  rewrite !regionIdx_rank.
  destruct (region_rank x1 y1 =? region_rank x2 y2); reflexivity.
Qed.

(** On [bounded] points every number that [compareAngle] forms is an
    integer that binary64 holds exactly: the four differences, the two
    products, their difference and the difference of the region indices.
    So the source computes what the model computes. *)
Lemma compareAngle_representable (base1 coord1 base2 coord2 : Coord2D) :
  bounded base1 -> bounded coord1 -> bounded base2 -> bounded coord2 ->
  let x1 := x coord1 - x base1 in
  let y1 := y coord1 - y base1 in
  let x2 := x coord2 - x base2 in
  let y2 := y coord2 - y base2 in
  representable x1 /\ representable y1 /\ representable x2 /\ representable y2 /\
  representable (y1 * x2) /\ representable (y2 * x1) /\
  representable (y1 * x2 - y2 * x1) /\
  representable (regionIdx x1 y1 - regionIdx x2 y2).
Proof.
  intros [Hb1x Hb1y] [Hc1x Hc1y] [Hb2x Hb2y] [Hc2x Hc2y] x1 y1 x2 y2.
  unfold coordinate_bound, representable in *.
  assert (Hx1 : Z.abs x1 <= 67108864) by (subst x1; lia).
  assert (Hy1 : Z.abs y1 <= 67108864) by (subst y1; lia).
  assert (Hx2 : Z.abs x2 <= 67108864) by (subst x2; lia).
  assert (Hy2 : Z.abs y2 <= 67108864) by (subst y2; lia).
  assert (Hp1 : Z.abs (y1 * x2) <= 67108864 * 67108864).
  { rewrite Z.abs_mul. apply Z.mul_le_mono_nonneg; try apply Z.abs_nonneg; assumption. }
  assert (Hp2 : Z.abs (y2 * x1) <= 67108864 * 67108864).
  { rewrite Z.abs_mul. apply Z.mul_le_mono_nonneg; try apply Z.abs_nonneg; assumption. }
  pose proof (region_rank_range x1 y1) as Hr1.
  pose proof (region_rank_range x2 y2) as Hr2.
  rewrite !regionIdx_rank.
  clearbody x1 y1 x2 y2.
  change (67108864 * 67108864) with 4503599627370496 in Hp1, Hp2.
  repeat split; lia.
Qed.

(** C3: the region of a vector is the position of its sign pair in the
    enumeration (0,0), (1,0), (1,1), (0,1), (-1,1), (-1,0), (-1,-1),
    (0,-1), (1,-1), which is the entry of [REGIONS] at that index; two
    rays in different regions compare as the sign of the difference of
    their region indices; a zero vector (coord equal to base) is in region
    0 and compares before every ray of nonzero length. *)
Theorem compareAngle_region_order :
  (forall vx vy : Z,
      regionIdx vx vy = region_rank vx vy /\
      0 <= regionIdx vx vy <= 8 /\
      nth_error REGIONS (Z.to_nat (regionIdx vx vy)) = Some (Z.sgn vx, Z.sgn vy)) /\
  (forall base1 coord1 base2 coord2 : Coord2D,
      let x1 := x coord1 - x base1 in
      let y1 := y coord1 - y base1 in
      let x2 := x coord2 - x base2 in
      let y2 := y coord2 - y base2 in
      (Z.sgn x1, Z.sgn y1) <> (Z.sgn x2, Z.sgn y2) ->
      compareAngle base1 coord1 base2 coord2 =
      Z.sgn (regionIdx x1 y1 - regionIdx x2 y2)) /\
  (forall base coord : Coord2D,
      same coord base = true ->
      regionIdx (x coord - x base) (y coord - y base) = 0) /\
  (forall base1 coord1 base2 coord2 : Coord2D,
      same coord1 base1 = true -> same coord2 base2 = false ->
      compareAngle base1 coord1 base2 coord2 = -1).
Proof.
  repeat split.
  - apply regionIdx_rank.
  - rewrite regionIdx_rank. apply region_rank_range.
  - rewrite regionIdx_rank. apply region_rank_range.
  - rewrite regionIdx_rank. apply region_rank_entry.
  - intros base1 coord1 base2 coord2 x1 y1 x2 y2 Hdiff.
    rewrite compareAngle_unfold. fold x1 y1 x2 y2. rewrite !regionIdx_rank.
    destruct (Z.eqb_spec (region_rank x1 y1) (region_rank x2 y2)) as [E | _].
    + apply region_rank_signs in E. contradiction.
    + reflexivity.
  - intros base coord Hsame. apply same_iff in Hsame. destruct Hsame as [-> ->].
    rewrite !Z.sub_diag. reflexivity.
  - intros base1 coord1 base2 coord2 H1 H2.
    rewrite compareAngle_unfold. cbv zeta.
    apply same_iff in H1. destruct H1 as [-> ->]. rewrite !Z.sub_diag.
    change (region_rank 0 0) with 0.
    assert (Hnz : region_rank (x coord2 - x base2) (y coord2 - y base2) <> 0).
    { intros E. apply region_rank_zero in E.
      assert (Hs : same coord2 base2 = true) by (apply same_iff; lia).
      congruence. }
    pose proof (region_rank_range (x coord2 - x base2) (y coord2 - y base2)) as Hr.
    destruct (Z.eqb_spec 0 (region_rank (x coord2 - x base2) (y coord2 - y base2))); lia.
Qed.

Lemma compareAngle_region_order_witness :
  compareAngle (pt 0 0) (pt 1 0) (pt 0 0) (pt 0 1) = Z.sgn (regionIdx 1 0 - regionIdx 0 1) /\
  regionIdx (x (pt 3 4) - x (pt 3 4)) (y (pt 3 4) - y (pt 3 4)) = 0 /\
  compareAngle (pt 3 4) (pt 3 4) (pt 0 0) (pt 1 (-1)) = -1.
Proof.
  destruct compareAngle_region_order as [_ [Hdiff [Hzero Hfirst]]].
  split; [| split].
  - apply (Hdiff (pt 0 0) (pt 1 0) (pt 0 0) (pt 0 1)). simpl. discriminate.
  - apply (Hzero (pt 3 4) (pt 3 4)). reflexivity.
  - apply (Hfirst (pt 3 4) (pt 3 4) (pt 0 0) (pt 1 (-1))); reflexivity.
Defined.

(** C4: two rays in the same region compare as the sign of
    [y1 * x2 - y2 * x1], the opposite of the sign of the usual cross
    product [x1 * y2 - x2 * y1]; and, for all rays, the result is -1, 0
    or 1.  The points are [bounded], so that the products are exact in
    the source. *)
Theorem compareAngle_same_region :
  (forall base1 coord1 base2 coord2 : Coord2D,
      bounded base1 -> bounded coord1 -> bounded base2 -> bounded coord2 ->
      let x1 := x coord1 - x base1 in
      let y1 := y coord1 - y base1 in
      let x2 := x coord2 - x base2 in
      let y2 := y coord2 - y base2 in
      (Z.sgn x1, Z.sgn y1) = (Z.sgn x2, Z.sgn y2) ->
      compareAngle base1 coord1 base2 coord2 = Z.sgn (y1 * x2 - y2 * x1) /\
      compareAngle base1 coord1 base2 coord2 = - Z.sgn (x1 * y2 - x2 * y1)) /\
  (forall base1 coord1 base2 coord2 : Coord2D,
      bounded base1 -> bounded coord1 -> bounded base2 -> bounded coord2 ->
      compareAngle base1 coord1 base2 coord2 = -1 \/
      compareAngle base1 coord1 base2 coord2 = 0 \/
      compareAngle base1 coord1 base2 coord2 = 1).
Proof.
  split.
  - intros base1 coord1 base2 coord2 _ _ _ _ x1 y1 x2 y2 Hsame.
    rewrite compareAngle_unfold. fold x1 y1 x2 y2.
    apply region_rank_signs in Hsame. rewrite Hsame, Z.eqb_refl.
    split; [reflexivity |].
    rewrite <- Z.sgn_opp. f_equal. ring.
  - intros base1 coord1 base2 coord2 _ _ _ _. rewrite compareAngle_unfold. cbv zeta.
    destruct (_ =? _); lia.
Qed.

Lemma compareAngle_same_region_witness :
  compareAngle (pt 0 0) (pt 3 1) (pt 1 1) (pt 2 3) = Z.sgn (1 * 1 - 2 * 3) /\
  compareAngle (pt 0 0) (pt 3 1) (pt 1 1) (pt 2 3) = - Z.sgn (3 * 2 - 1 * 1).
Proof.
  destruct compareAngle_same_region as [Hsame _].
  apply (Hsame (pt 0 0) (pt 3 1) (pt 1 1) (pt 2 3));
    try reflexivity; unfold bounded, coordinate_bound; simpl; lia.
Defined.

(** C10: swapping the two rays negates the result, and a ray compares
    equal to itself.  The points are [bounded], so that the products are
    exact in the source. *)
Theorem compareAngle_antisym_refl :
  (forall base1 coord1 base2 coord2 : Coord2D,
      bounded base1 -> bounded coord1 -> bounded base2 -> bounded coord2 ->
      compareAngle base1 coord1 base2 coord2 = - compareAngle base2 coord2 base1 coord1) /\
  (forall base coord : Coord2D,
      bounded base -> bounded coord ->
      compareAngle base coord base coord = 0).
Proof.
  split.
  - intros base1 coord1 base2 coord2 _ _ _ _. rewrite !compareAngle_unfold. cbv zeta.
    rewrite (Z.eqb_sym (region_rank (x coord2 - x base2) (y coord2 - y base2))).
    destruct (_ =? _); rewrite <- Z.sgn_opp; f_equal; ring.
  - intros base coord _ _. rewrite compareAngle_unfold. cbv zeta.
    rewrite Z.eqb_refl. replace (_ - _) with 0 by ring. reflexivity.
Qed.

Lemma compareAngle_antisym_refl_witness :
  compareAngle (pt 0 0) (pt 3 1) (pt 1 1) (pt (-2) 3)
  = - compareAngle (pt 1 1) (pt (-2) 3) (pt 0 0) (pt 3 1) /\
  compareAngle (pt 4 2) (pt 7 9) (pt 4 2) (pt 7 9) = 0.
Proof.
  destruct compareAngle_antisym_refl as [Hanti Hrefl]. split.
  - apply (Hanti (pt 0 0) (pt 3 1) (pt 1 1) (pt (-2) 3));
      unfold bounded, coordinate_bound; simpl; lia.
  - apply (Hrefl (pt 4 2) (pt 7 9)); unfold bounded, coordinate_bound; simpl; lia.
Defined.

End CompareAngle.

(** ** The array operations of the scan *)

Section Arrays.

Context {A : Type}.

Lemma array_get_last (arr : list A) (a : A) :
  array_get (arr ++ [a]) (array_length (arr ++ [a]) - 1) = Some a.
Proof.
  unfold array_get, array_length. rewrite length_app. simpl.
  destruct (Z.ltb_spec (Z.of_nat (length arr + 1) - 1) 0) as [Hneg | _]; [lia |].
  replace (Z.to_nat (Z.of_nat (length arr + 1) - 1)) with (length arr) by lia.
  rewrite nth_error_app2 by lia. rewrite Nat.sub_diag. reflexivity.
Qed.

Lemma array_get_second_last (arr : list A) (b a : A) :
  array_get ((arr ++ [b]) ++ [a]) (array_length ((arr ++ [b]) ++ [a]) - 2) = Some b.
Proof.
  unfold array_get, array_length. rewrite !length_app. simpl.
  destruct (Z.ltb_spec (Z.of_nat (length arr + 1 + 1) - 2) 0) as [Hneg | _]; [lia |].
  replace (Z.to_nat (Z.of_nat (length arr + 1 + 1) - 2)) with (length arr) by lia.
  rewrite nth_error_app1 by (rewrite length_app; simpl; lia).
  rewrite nth_error_app2 by lia. rewrite Nat.sub_diag. reflexivity.
Qed.

Lemma pop_push (arr : list A) (a : A) : pop (push arr a) = arr.
Proof. apply removelast_last. Qed.

End Arrays.

(** ** The loops of [findConvexHull] compute the scan *)

Section Scan.

Lemma prune_nonempty (stack : list Coord2D) (cand : Coord2D) :
  stack <> [] -> prune stack cand <> [].
Proof.
  induction stack as [| top below IH]; intros Hne; [contradiction |].
  simpl. destruct below as [| second below']; [discriminate |].
  destruct (_ <=? 0); [apply IH |]; discriminate.
Qed.

Lemma prune_length (stack : list Coord2D) (cand : Coord2D) :
  (length (prune stack cand) <= length stack)%nat.
Proof.
  induction stack as [| top below IH]; [reflexivity |].
  simpl. destruct below as [| second below']; [reflexivity |].
  destruct (_ <=? 0); [| reflexivity].
  etransitivity; [apply IH |]. simpl. lia.
Qed.

(** What [prune] keeps is a suffix of the stack: the points it removes
    are on top. *)
Lemma prune_suffix (stack : list Coord2D) (cand : Coord2D) :
  exists popped, stack = popped ++ prune stack cand.
Proof.
  induction stack as [| top below IH]; [exists []; reflexivity |].
  simpl. destruct below as [| second below']; [exists []; reflexivity |].
  destruct (_ <=? 0); [| exists []; reflexivity].
  destruct IH as [popped IH]. exists (top :: popped). simpl. f_equal. exact IH.
Qed.

Lemma scan_step_nonempty (stack : list Coord2D) (cand : Coord2D) :
  stack <> [] -> scan_step stack cand <> [].
Proof.
  destruct stack as [| top below]; intros Hne; [contradiction |].
  unfold scan_step. destruct (same cand top); discriminate.
Qed.

Lemma scan_step_length (stack : list Coord2D) (cand : Coord2D) :
  (length (scan_step stack cand) <= S (length stack))%nat.
Proof.
  destruct stack as [| top below]; [simpl; lia |].
  unfold scan_step. destruct (same cand top); [simpl; lia |].
  pose proof (prune_length (top :: below) cand). simpl in *. lia.
Qed.

(** The [while] loop on the array [rev stack] pops what [prune] pops,
    given one unit of fuel per point of the stack. *)
Lemma while_pop_prune (fuel : nat) :
  forall (stack : list Coord2D) (coord : Coord2D),
    stack <> [] -> (length stack <= fuel)%nat ->
    while_pop fuel (rev stack) coord = Ok (rev (prune stack coord)).
Proof.
  induction fuel as [| fuel IH]; intros stack coord Hne Hfuel.
  - destruct stack; [contradiction | simpl in Hfuel; lia].
  - destruct stack as [| top [| second below]]; [contradiction | reflexivity |].
    cbn [while_pop].
    assert (Hlen : (2 <=? array_length (rev (top :: second :: below))) = true).
    { unfold array_length. rewrite length_rev. simpl. apply Z.leb_le. lia. }
    rewrite Hlen. cbn [rev].
    rewrite array_get_last, array_get_second_last. cbn [defined bind].
    cbn [prune].
    destruct (compareAngle top coord second coord <=? 0).
    + change (pop ((rev below ++ [second]) ++ [top]))
        with (pop (push (rev below ++ [second]) top)).
      rewrite pop_push.
      change (rev below ++ [second]) with (rev (second :: below)).
      apply IH; [discriminate | simpl in *; lia].
    + reflexivity.
Qed.

(** The [for ... of] loop on the array [rev stack] folds [scan_step]. *)
Lemma for_of_scan (fuel : nat) (sortedCoords : list Coord2D) :
  forall stack : list Coord2D,
    stack <> [] -> (length stack + length sortedCoords <= S fuel)%nat ->
    for_of fuel sortedCoords (rev stack) = Ok (rev (fold_left scan_step sortedCoords stack)).
Proof.
  induction sortedCoords as [| coord rest IH]; intros stack Hne Hfuel; [reflexivity |].
  destruct stack as [| top below]; [contradiction |].
  cbn [for_of fold_left]. cbn [rev]. rewrite array_get_last. cbn [defined bind].
  change (rev below ++ [top]) with (rev (top :: below)).
  unfold scan_step at 2.
  destruct (same coord top) eqn:Hsame.
  - apply IH; [discriminate | simpl in *; lia].
  - rewrite while_pop_prune by (try discriminate; simpl in *; lia).
    cbn [bind]. unfold push.
    change (rev (prune (top :: below) coord) ++ [coord])
      with (rev (coord :: prune (top :: below) coord)).
    apply IH; [discriminate |].
    pose proof (prune_length (top :: below) coord). simpl in *. lia.
Qed.

End Scan.

(** ** Sorting *)

Section Sort.

Context {A : Type}.
Variable cmp : A -> A -> Z.

Lemma sort_insert_perm (a : A) (l : list A) :
  Permutation (sort_insert cmp a l) (a :: l).
Proof.
  induction l as [| b l IH]; simpl; [reflexivity |].
  destruct (cmp a b <=? 0); [reflexivity |].
  rewrite IH. apply perm_swap.
Qed.

Lemma sort_perm (l : list A) : Permutation (sort cmp l) l.
Proof.
  induction l as [| a l IH]; simpl; [reflexivity |].
  rewrite sort_insert_perm. apply perm_skip, IH.
Qed.

Lemma sort_length (l : list A) : length (sort cmp l) = length l.
Proof. apply Permutation_length, sort_perm. Qed.

Lemma sort_In (a : A) (l : list A) : In a (sort cmp l) <-> In a l.
Proof.
  split; apply Permutation_in; [| symmetry]; apply sort_perm.
Qed.

(** For a comparator that is total and transitive the result is
    ascending, and elements that compare equal keep their order. *)
Hypothesis cmp_total : forall a b, 0 < cmp a b -> cmp b a <= 0.
Hypothesis cmp_trans : forall a b c, cmp a b <= 0 -> cmp b c <= 0 -> cmp a c <= 0.

Lemma sort_insert_sorted (a : A) (l : list A) :
  StronglySorted (cmp_le cmp) l -> StronglySorted (cmp_le cmp) (sort_insert cmp a l).
Proof.
  induction l as [| b l IH]; intros Hs; simpl.
  - constructor; constructor.
  - inversion Hs as [| b' l' Hl Hb]; subst.
    destruct (Z.leb_spec (cmp a b) 0) as [Hab | Hab].
    + constructor; [exact Hs |].
      constructor; [exact Hab |].
      eapply Forall_impl; [| exact Hb].
      intros c Hbc. unfold cmp_le in *. eapply cmp_trans; eassumption.
    + constructor; [apply IH, Hl |].
      eapply Permutation_Forall; [symmetry; apply sort_insert_perm |].
      constructor; [apply cmp_total, Hab | exact Hb].
Qed.

Lemma sort_sorted (l : list A) : StronglySorted (cmp_le cmp) (sort cmp l).
Proof.
  induction l as [| a l IH]; simpl; [constructor |].
  apply sort_insert_sorted, IH.
Qed.

(** Stability: the elements equivalent to [p] appear in the order of the
    input. *)
Lemma sort_insert_stable (p a : A) (l : list A) :
  filter (cmp_equiv cmp p) (sort_insert cmp a l) = filter (cmp_equiv cmp p) (a :: l).
Proof.
  induction l as [| b l IH]; [reflexivity |].
  cbn [sort_insert]. destruct (Z.leb_spec (cmp a b) 0) as [Hab | Hab]; [reflexivity |].
  cbn [filter] in *. rewrite IH.
  destruct (cmp_equiv cmp p a) eqn:Ea; [| reflexivity].
  destruct (cmp_equiv cmp p b) eqn:Eb; [| reflexivity].
  exfalso. unfold cmp_equiv in *.
  rewrite andb_true_iff, !Z.leb_le in Ea, Eb.
  pose proof (cmp_trans a p b (proj2 Ea) (proj1 Eb)). lia.
Qed.

Lemma sort_stable (p : A) (l : list A) :
  filter (cmp_equiv cmp p) (sort cmp l) = filter (cmp_equiv cmp p) l.
Proof.
  induction l as [| a l IH]; [reflexivity |].
  cbn [sort]. rewrite sort_insert_stable. cbn [filter]. rewrite IH. reflexivity.
Qed.

Lemma cmp_refl (a : A) : cmp a a <= 0.
Proof.
  destruct (Z.leb_spec (cmp a a) 0) as [H | H]; [exact H | apply cmp_total, H].
Qed.

(** Two ascending rearrangements of one array that keep equivalent
    elements in the same order are equal. *)
Lemma stable_sorted_unique (s1 : list A) :
  forall s2 : list A,
    Permutation s1 s2 ->
    StronglySorted (cmp_le cmp) s1 -> StronglySorted (cmp_le cmp) s2 ->
    (forall p, filter (cmp_equiv cmp p) s1 = filter (cmp_equiv cmp p) s2) ->
    s1 = s2.
Proof.
  induction s1 as [| a s1 IH]; intros s2 Hperm Hs1 Hs2 Hst.
  - apply Permutation_nil in Hperm. symmetry. exact Hperm.
  - destruct s2 as [| b s2].
    { apply Permutation_sym, Permutation_nil in Hperm. discriminate Hperm. }
    inversion Hs1 as [| a' s1' Hs1' Ha]; subst.
    inversion Hs2 as [| b' s2' Hs2' Hb]; subst.
    assert (Hab : cmp a b <= 0).
    { assert (Hin : In b (a :: s1))
        by (eapply Permutation_in; [symmetry; exact Hperm | left; reflexivity]).
      destruct Hin as [<- | Hin]; [apply cmp_refl |].
      rewrite Forall_forall in Ha. apply Ha, Hin. }
    assert (Hba : cmp b a <= 0).
    { assert (Hin : In a (b :: s2))
        by (eapply Permutation_in; [exact Hperm | left; reflexivity]).
      destruct Hin as [<- | Hin]; [apply cmp_refl |].
      rewrite Forall_forall in Hb. apply Hb, Hin. }
    assert (E : a = b).
    { pose proof (Hst a) as Hsta. cbn [filter] in Hsta.
      assert (Eaa : cmp_equiv cmp a a = true)
        by (unfold cmp_equiv; pose proof (cmp_refl a); apply andb_true_iff; lia).
      assert (Eab : cmp_equiv cmp a b = true)
        by (unfold cmp_equiv; apply andb_true_iff; lia).
      rewrite Eaa, Eab in Hsta. injection Hsta as E _. exact E. }
    subst b. f_equal. apply IH.
    + eapply Permutation_cons_inv, Hperm.
    + exact Hs1'.
    + exact Hs2'.
    + intros p. specialize (Hst p). cbn [filter] in Hst.
      destruct (cmp_equiv cmp p a); [injection Hst as E; exact E | exact Hst].
Qed.

(** Hence every stable sort returns what [sort] returns. *)
Lemma sort_unique (l s : list A) :
  Permutation s l ->
  StronglySorted (cmp_le cmp) s ->
  (forall p, filter (cmp_equiv cmp p) s = filter (cmp_equiv cmp p) l) ->
  s = sort cmp l.
Proof.
  intros Hperm Hsorted Hstable. apply stable_sorted_unique.
  - rewrite Hperm. symmetry. apply sort_perm.
  - exact Hsorted.
  - apply sort_sorted.
  - intros p. rewrite Hstable, sort_stable. reflexivity.
Qed.

End Sort.

(** ** [compareAngle] around one base is a consistent comparator *)

Section AngleOrder.

Lemma region_rank_cases (x1 y1 x2 y2 : Z) :
  region_rank x1 y1 = region_rank x2 y2 ->
  (x1 < 0 /\ x2 < 0 \/ x1 = 0 /\ x2 = 0 \/ 0 < x1 /\ 0 < x2) /\
  (y1 < 0 /\ y2 < 0 \/ y1 = 0 /\ y2 = 0 \/ 0 < y1 /\ 0 < y2).
Proof.
  unfold region_rank.
  destruct (Z.compare_spec x1 0), (Z.compare_spec y1 0),
    (Z.compare_spec x2 0), (Z.compare_spec y2 0);
    intros Hr; try discriminate Hr; lia.
Qed.

(** Within one region the sign of [y1 * x2 - y2 * x1] is transitive. *)
Lemma turn_trans (x1 y1 x2 y2 x3 y3 : Z) :
  region_rank x1 y1 = region_rank x2 y2 ->
  region_rank x2 y2 = region_rank x3 y3 ->
  y1 * x2 - y2 * x1 <= 0 -> y2 * x3 - y3 * x2 <= 0 ->
  y1 * x3 - y3 * x1 <= 0.
Proof.
  intros H12 H23 Ha Hb.
  apply region_rank_cases in H12, H23.
  destruct H12 as [[Hx | [Hx | Hx]] [Hy | [Hy | Hy]]];
  destruct H23 as [[Hx' | [Hx' | Hx']] [Hy' | [Hy' | Hy']]]; try lia;
  destruct Hx, Hy, Hx', Hy'; subst; try lia.
  all: assert (E : x2 * (y3 * x1 - y1 * x3)
                   = x1 * (y3 * x2 - y2 * x3) + x3 * (y2 * x1 - y1 * x2)) by ring;
    nia.
Qed.

Lemma compareAngle_le_iff (base1 coord1 base2 coord2 : Coord2D) :
  let x1 := x coord1 - x base1 in
  let y1 := y coord1 - y base1 in
  let x2 := x coord2 - x base2 in
  let y2 := y coord2 - y base2 in
  compareAngle base1 coord1 base2 coord2 <= 0 <->
  region_rank x1 y1 < region_rank x2 y2 \/
  (region_rank x1 y1 = region_rank x2 y2 /\ y1 * x2 - y2 * x1 <= 0).
Proof.
  intros x1 y1 x2 y2. rewrite compareAngle_unfold. fold x1 y1 x2 y2.
  destruct (Z.eqb_spec (region_rank x1 y1) (region_rank x2 y2)) as [E | N]; lia.
Qed.

Lemma angle_cmp_total (base a b : Coord2D) :
  0 < angle_cmp base a b -> angle_cmp base b a <= 0.
Proof.
  unfold angle_cmp. rewrite !compareAngle_unfold. cbv zeta.
  rewrite (Z.eqb_sym (region_rank (x b - x base) (y b - y base))).
  destruct (_ =? _); lia.
Qed.

Lemma angle_cmp_trans (base a b c : Coord2D) :
  angle_cmp base a b <= 0 -> angle_cmp base b c <= 0 -> angle_cmp base a c <= 0.
Proof.
  unfold angle_cmp. rewrite !compareAngle_le_iff. cbv zeta.
  intros [Hab | [Eab Hab]] [Hbc | [Ebc Hbc]]; try (left; lia).
  right. split; [congruence |].
  eapply turn_trans; eassumption.
Qed.

(** The sorted array of [findConvexHull]: a rearrangement of the input,
    ascending in angle around the base, points of equal angle in their
    input order. *)
Lemma sortedCoords_ascending (base : Coord2D) (coords : list Coord2D) :
  StronglySorted (angle_le base) (sort (angle_cmp base) coords).
Proof.
  apply sort_sorted; [apply angle_cmp_total | apply angle_cmp_trans].
Qed.

Lemma sortedCoords_stable (base p : Coord2D) (coords : list Coord2D) :
  filter (cmp_equiv (angle_cmp base) p) (sort (angle_cmp base) coords)
  = filter (cmp_equiv (angle_cmp base) p) coords.
Proof. apply sort_stable, angle_cmp_trans. Qed.

End AngleOrder.

(** ** Pivot selection *)

Section Pivot.

Lemma lower_left_cases (prov cand : Coord2D) :
  (lower_left prov cand = cand /\
   (y cand < y prov \/ (y cand = y prov /\ x cand < x prov))) \/
  (lower_left prov cand = prov /\
   (y prov < y cand \/ (y prov = y cand /\ x prov <= x cand))).
Proof.
  unfold lower_left.
  destruct (Z.ltb_spec (y cand) (y prov)); simpl; [left; split; [reflexivity | lia] |].
  destruct (Z.eqb_spec (y cand) (y prov)); simpl; [| right; split; [reflexivity | lia]].
  destruct (Z.ltb_spec (x cand) (x prov)); [left | right]; split; try reflexivity; lia.
Qed.

Lemma fold_lower_left_pivot (rest : list Coord2D) :
  forall (seen : list Coord2D) (prov : Coord2D),
    is_pivot seen prov -> is_pivot (seen ++ rest) (fold_left lower_left rest prov).
Proof.
  induction rest as [| cand rest IH]; intros seen prov Hp.
  - rewrite app_nil_r. exact Hp.
  - cbn [fold_left].
    replace (seen ++ cand :: rest) with ((seen ++ [cand]) ++ rest)
      by (rewrite <- app_assoc; reflexivity).
    apply IH. destruct Hp as [Hin Hmin].
    destruct (lower_left_cases prov cand) as [[-> Hlt] | [-> Hle]]; split.
    + apply in_or_app. right. left. reflexivity.
    + intros q Hq. apply in_app_or in Hq. destruct Hq as [Hq | [<- | []]].
      * specialize (Hmin q Hq). lia.
      * lia.
    + apply in_or_app. left. exact Hin.
    + intros q Hq. apply in_app_or in Hq. destruct Hq as [Hq | [<- | []]].
      * apply Hmin, Hq.
      * exact Hle.
Qed.

(** On a nonempty array [reduce] returns the pivot. *)
Lemma reduce_lower_left (coords : list Coord2D) :
  coords <> [] ->
  exists baseCoord, reduce lower_left coords = Ok baseCoord /\ is_pivot coords baseCoord.
Proof.
  destruct coords as [| first rest]; intros Hne; [contradiction |].
  exists (fold_left lower_left rest first). split; [reflexivity |].
  apply (fold_lower_left_pivot rest [first] first). split.
  - left. reflexivity.
  - intros q [<- | []]. lia.
Qed.

(** Two pivots of one list have the same coordinates. *)
Lemma is_pivot_unique (coords : list Coord2D) (p q : Coord2D) :
  is_pivot coords p -> is_pivot coords q -> p = q.
Proof.
  intros [Hp Hpmin] [Hq Hqmin].
  specialize (Hpmin q Hq). specialize (Hqmin p Hp).
  apply same_eq, same_iff. lia.
Qed.

End Pivot.

(** ** The hull that [findConvexHull] returns *)

Section Hull.

(** With fuel for [length coords] evaluations of the loop condition,
    [findConvexHull] returns the scan of the sorted input from the
    pivot. *)
Lemma findConvexHull_fuel_scan (fuel : nat) (coords : list Coord2D) (baseCoord : Coord2D) :
  reduce lower_left coords = Ok baseCoord ->
  (length coords <= fuel)%nat ->
  findConvexHull_fuel fuel coords = Ok (scan baseCoord (sort (angle_cmp baseCoord) coords)).
Proof.
  intros Hbase Hfuel. unfold findConvexHull_fuel, array_length.
  destruct coords as [| first rest]; [discriminate Hbase |].
  destruct (Z.eqb_spec (Z.of_nat (length (first :: rest))) 0) as [E | _];
    [simpl in E; lia |].
  rewrite Hbase. cbn [bind].
  change (fun coord1 coord2 => compareAngle baseCoord coord1 baseCoord coord2)
    with (angle_cmp baseCoord).
  change [baseCoord] with (rev [baseCoord]).
  rewrite for_of_scan; [reflexivity | discriminate |].
  rewrite sort_length. simpl in *. lia.
Qed.

Lemma findConvexHull_scan (coords : list Coord2D) (baseCoord : Coord2D) :
  reduce lower_left coords = Ok baseCoord ->
  findConvexHull coords = Ok (scan baseCoord (sort (angle_cmp baseCoord) coords)).
Proof.
  intros Hbase. apply findConvexHull_fuel_scan; [exact Hbase | reflexivity].
Qed.

Lemma findConvexHull_fuel_nil (fuel : nat) : findConvexHull_fuel fuel [] = Ok [].
Proof. reflexivity. Qed.

(** The bottom of the stack stays in place. *)
Lemma prune_bottom (stack : list Coord2D) (cand bottom : Coord2D) :
  forall upper, stack = upper ++ [bottom] ->
  exists upper', prune stack cand = upper' ++ [bottom].
Proof.
  induction stack as [| top below IH]; intros upper E.
  - destruct upper; discriminate E.
  - cbn [prune]. destruct below as [| second below']; [exists upper; exact E |].
    destruct (_ <=? 0); [| exists upper; exact E].
    destruct upper as [| u upper]; [discriminate E |].
    injection E as _ E. apply (IH upper E).
Qed.

Lemma scan_step_bottom (stack : list Coord2D) (cand bottom : Coord2D) :
  forall upper, stack = upper ++ [bottom] ->
  exists upper', scan_step stack cand = upper' ++ [bottom].
Proof.
  intros upper E. destruct stack as [| top below]; [exists upper; exact E |].
  unfold scan_step. destruct (same cand top); [exists upper; exact E |].
  destruct (prune_bottom (top :: below) cand bottom upper E) as [upper' ->].
  exists (cand :: upper'). reflexivity.
Qed.

Lemma fold_scan_step_bottom (ordered : list Coord2D) (bottom : Coord2D) :
  forall stack upper, stack = upper ++ [bottom] ->
  exists upper', fold_left scan_step ordered stack = upper' ++ [bottom].
Proof.
  induction ordered as [| cand ordered IH]; intros stack upper E.
  - exists upper. exact E.
  - cbn [fold_left].
    destruct (scan_step_bottom stack cand bottom upper E) as [upper' E'].
    apply (IH _ upper' E').
Qed.

Lemma scan_head (pivot : Coord2D) (ordered : list Coord2D) :
  exists rest, scan pivot ordered = pivot :: rest.
Proof.
  unfold scan.
  destruct (fold_scan_step_bottom ordered pivot [pivot] [] eq_refl) as [upper ->].
  exists (rev upper). rewrite rev_app_distr. reflexivity.
Qed.

(** The stack holds the pivot and candidates only. *)
Lemma prune_In (stack : list Coord2D) (cand p : Coord2D) :
  In p (prune stack cand) -> In p stack.
Proof.
  destruct (prune_suffix stack cand) as [popped E].
  intros Hin. rewrite E. apply in_or_app. right. exact Hin.
Qed.

Lemma scan_step_In (stack : list Coord2D) (cand p : Coord2D) :
  In p (scan_step stack cand) -> p = cand \/ In p stack.
Proof.
  destruct stack as [| top below]; [intros []|].
  unfold scan_step. destruct (same cand top); [right; assumption |].
  intros [<- | Hin]; [left; reflexivity | right; eapply prune_In, Hin].
Qed.

Lemma fold_scan_step_In (ordered : list Coord2D) (p : Coord2D) :
  forall stack, In p (fold_left scan_step ordered stack) -> In p ordered \/ In p stack.
Proof.
  induction ordered as [| cand ordered IH]; intros stack Hin; [right; exact Hin |].
  cbn [fold_left] in Hin. apply IH in Hin. destruct Hin as [Hin | Hin].
  - left. right. exact Hin.
  - apply scan_step_In in Hin. destruct Hin as [-> | Hin]; [left; left; reflexivity |].
    right. exact Hin.
Qed.

Lemma scan_In (pivot : Coord2D) (ordered : list Coord2D) (p : Coord2D) :
  In p (scan pivot ordered) -> p = pivot \/ In p ordered.
Proof.
  unfold scan. rewrite <- in_rev. intros Hin.
  apply fold_scan_step_In in Hin. destruct Hin as [Hin | [<- | []]];
    [right; exact Hin | left; reflexivity].
Qed.

End Hull.

(** ** The claims on [findConvexHull] *)

Section Claims.

(** C2: on a nonempty input [findConvexHull] returns a nonempty sequence
    that starts with the pivot, the input point with the smallest y and,
    among those, the smallest x. *)
Theorem findConvexHull_starts_at_pivot (coords : list Coord2D) :
  coords <> [] ->
  exists pivot rest,
    findConvexHull coords = Ok (pivot :: rest) /\ is_pivot coords pivot.
Proof.
  intros Hne.
  destruct (reduce_lower_left coords Hne) as [baseCoord [Hbase Hpivot]].
  destruct (scan_head baseCoord (sort (angle_cmp baseCoord) coords)) as [rest Hscan].
  exists baseCoord, rest. split; [| exact Hpivot].
  rewrite (findConvexHull_scan coords baseCoord Hbase), Hscan. reflexivity.
Qed.

Lemma findConvexHull_starts_at_pivot_witness :
  exists pivot rest,
    findConvexHull [pt 3 1; pt 0 4; pt 2 0; pt 1 0] = Ok (pivot :: rest) /\
    is_pivot [pt 3 1; pt 0 4; pt 2 0; pt 1 0] pivot.
Proof. apply findConvexHull_starts_at_pivot. discriminate. Defined.



(** C6: [findConvexHull] returns, and every point it returns is a point
    of the input. *)
Theorem findConvexHull_members (coords : list Coord2D) :
  exists hull,
    findConvexHull coords = Ok hull /\
    forall p, In p hull -> exists q, In q coords /\ same p q = true.
Proof.
  destruct coords as [| first rest].
  - exists []. split; [reflexivity | intros p []].
  - destruct (reduce_lower_left (first :: rest)) as [baseCoord [Hbase Hpivot]];
      [discriminate |].
    eexists. split; [apply (findConvexHull_scan _ baseCoord Hbase) |].
    intros p Hin. exists p. split; [| apply same_eq; reflexivity].
    apply scan_In in Hin. destruct Hin as [-> | Hin].
    + apply Hpivot.
    + apply sort_In in Hin. exact Hin.
Qed.

Lemma findConvexHull_members_witness :
  exists q, In q [pt 0 0; pt 1 0; pt 2 0] /\ same (pt 2 0) q = true.
Proof.
  destruct (findConvexHull_members [pt 0 0; pt 1 0; pt 2 0]) as [hull [E H]].
  apply H. vm_compute in E. injection E as <-. simpl. right. left. reflexivity.
Defined.

(** C7: [findConvexHull] is total: on every input it returns a sequence
    (no [TypeError], so every array read was in bounds; no loop runs out
    of fuel, the same result being reached with any fuel of at least
    [length coords]); the sequence is empty exactly when the input is. *)
Theorem findConvexHull_total (coords : list Coord2D) :
  exists hull,
    findConvexHull coords = Ok hull /\
    (forall fuel, (length coords <= fuel)%nat -> findConvexHull_fuel fuel coords = Ok hull) /\
    (hull = [] <-> coords = []).
Proof.
  destruct coords as [| first rest].
  - exists []. split; [reflexivity |]. split; [reflexivity | tauto].
  - destruct (reduce_lower_left (first :: rest)) as [baseCoord [Hbase Hpivot]];
      [discriminate |].
    destruct (scan_head baseCoord (sort (angle_cmp baseCoord) (first :: rest)))
      as [tail Hscan].
    exists (baseCoord :: tail). split; [| split].
    + rewrite <- Hscan. apply (findConvexHull_scan _ baseCoord Hbase).
    + intros fuel Hfuel. rewrite <- Hscan.
      apply (findConvexHull_fuel_scan fuel _ baseCoord Hbase Hfuel).
    + split; discriminate.
Qed.

Lemma findConvexHull_total_witness :
  findConvexHull_fuel 7 [pt 0 0; pt 1 0; pt 2 0] = Ok [pt 0 0; pt 2 0].
Proof.
  destruct (findConvexHull_total [pt 0 0; pt 1 0; pt 2 0]) as [hull [E [Hfuel _]]].
  rewrite (Hfuel 7%nat) by (simpl; lia). rewrite <- E. reflexivity.
Defined.

(** C9: on [(0,0), (1,0), (2,0)] the result is [(0,0), (2,0)]. *)
Theorem findConvexHull_collinear_triple :
  findConvexHull [pt 0 0; pt 1 0; pt 2 0] = Ok [pt 0 0; pt 2 0].
Proof. reflexivity. Qed.

(** C1, at a failing input: for the triangle (0,0), (2,0), (0,2) and the
    point (0,1) of its edge, given in this order, [findConvexHull] returns
    all four points.  The point (0,1) is not a vertex of the hull of the
    input, being the midpoint of (0,0) and (0,2), and the consecutive
    points (0,2), (0,1), (0,0) of the result are collinear. *)
Theorem findConvexHull_keeps_edge_point :
  let coords := [pt 0 0; pt 2 0; pt 0 2; pt 0 1] in
  findConvexHull coords = Ok coords /\
  ~ hull_vertex coords (pt 0 1) /\
  In (pt 0 2, pt 0 1, pt 0 0) (cyclic_triples coords) /\
  collinear (pt 0 2) (pt 0 1) (pt 0 0).
Proof.
  cbv zeta. split; [reflexivity |]. split; [| split].
  - intros [_ Hout]. apply Hout.
    exists [(1, pt 0 0); (1, pt 0 2)]. split; [| repeat split].
    repeat (constructor; [simpl; split; [lia | auto] |]). constructor.
  - simpl. right. right. left. reflexivity.
  - reflexivity.
Qed.

(** C8, at a failing input: the lists [(0,0), (1,1), (2,2)] and
    [(0,0), (2,2), (1,1)] are permutations of each other, and (1,1) is in
    the result for the second and not in the result for the first. *)
Theorem findConvexHull_depends_on_order :
  let coords1 := [pt 0 0; pt 1 1; pt 2 2] in
  let coords2 := [pt 0 0; pt 2 2; pt 1 1] in
  Permutation coords1 coords2 /\
  findConvexHull coords1 = Ok [pt 0 0; pt 2 2] /\
  findConvexHull coords2 = Ok [pt 0 0; pt 2 2; pt 1 1] /\
  ~ In (pt 1 1) [pt 0 0; pt 2 2] /\
  In (pt 1 1) [pt 0 0; pt 2 2; pt 1 1].
Proof.
  cbv zeta. split; [apply perm_skip, perm_swap |].
  split; [reflexivity |]. split; [reflexivity |]. split.
  - intros [H | [H | []]]; discriminate H.
  - right. right. left. reflexivity.
Qed.

End Claims.

(** * Further properties *)

(** ** The comparator as an order on directions *)

Section Directions.

(** X1: on [bounded] points the comparator is transitive, whatever the
    bases of the three rays: if the first is not after the second and the
    second not after the third, the first is not after the third. *)
Theorem compareAngle_transitive (base1 coord1 base2 coord2 base3 coord3 : Coord2D) :
  bounded base1 -> bounded coord1 -> bounded base2 -> bounded coord2 ->
  bounded base3 -> bounded coord3 ->
  compareAngle base1 coord1 base2 coord2 <= 0 ->
  compareAngle base2 coord2 base3 coord3 <= 0 ->
  compareAngle base1 coord1 base3 coord3 <= 0.
Proof.
  intros _ _ _ _ _ _.
  rewrite !compareAngle_le_iff. cbv zeta.
  intros [Hab | [Eab Hab]] [Hbc | [Ebc Hbc]]; try (left; lia).
  right. split; [congruence |].
  eapply turn_trans; eassumption.
Qed.

Lemma compareAngle_transitive_witness :
  compareAngle (pt 0 0) (pt 2 1) (pt 5 5) (pt 4 9) <= 0.
Proof.
  apply (compareAngle_transitive _ _ (pt 1 1) (pt 3 3));
    try (unfold bounded, coordinate_bound; simpl; lia);
    vm_compute; discriminate.
Defined.

Lemma compareAngle_zero_iff (base1 coord1 base2 coord2 : Coord2D) :
  let x1 := x coord1 - x base1 in
  let y1 := y coord1 - y base1 in
  let x2 := x coord2 - x base2 in
  let y2 := y coord2 - y base2 in
  compareAngle base1 coord1 base2 coord2 = 0 <->
  region_rank x1 y1 = region_rank x2 y2 /\ y1 * x2 - y2 * x1 = 0.
Proof.
  intros x1 y1 x2 y2. rewrite compareAngle_unfold. fold x1 y1 x2 y2.
  destruct (Z.eqb_spec (region_rank x1 y1) (region_rank x2 y2)) as [E | N]; lia.
Qed.

Lemma sgn_scaled (s t a b : Z) : 0 < s -> 0 < t -> s * a = t * b -> Z.sgn a = Z.sgn b.
Proof.
  intros Hs Ht E.
  assert (Ea : Z.sgn (s * a) = Z.sgn a)
    by (rewrite Z.sgn_mul, (Z.sgn_pos s Hs); apply Z.mul_1_l).
  assert (Eb : Z.sgn (t * b) = Z.sgn b)
    by (rewrite Z.sgn_mul, (Z.sgn_pos t Ht); apply Z.mul_1_l).
  congruence.
Qed.

(** X2: two rays on [bounded] points compare equal exactly when their
    vectors have the same direction, that is, are equal up to positive
    integer factors (two rays of length zero included). *)
Theorem compareAngle_zero_same_direction (base1 coord1 base2 coord2 : Coord2D) :
  bounded base1 -> bounded coord1 -> bounded base2 -> bounded coord2 ->
  (compareAngle base1 coord1 base2 coord2 = 0 <->
   same_direction (x coord1 - x base1) (y coord1 - y base1)
                  (x coord2 - x base2) (y coord2 - y base2)).
Proof.
  intros _ _ _ _.
  rewrite compareAngle_zero_iff. cbv zeta.
  set (x1 := x coord1 - x base1). set (y1 := y coord1 - y base1).
  set (x2 := x coord2 - x base2). set (y2 := y coord2 - y base2).
  clearbody x1 y1 x2 y2. unfold same_direction. split.
  - intros [Hrank Hcross]. apply region_rank_cases in Hrank.
    destruct Hrank as [[[Hx1 Hx2] | [[Hx1 Hx2] | [Hx1 Hx2]]] Hy].
    + exists (- x2), (- x1). repeat split; nia.
    + destruct Hy as [[Hy1 Hy2] | [[Hy1 Hy2] | [Hy1 Hy2]]].
      * exists (- y2), (- y1). subst. repeat split; nia.
      * exists 1, 1. subst. repeat split; nia.
      * exists y2, y1. subst. repeat split; nia.
    + exists x2, x1. repeat split; nia.
  - intros [s [t [Hs [Ht [Ex Ey]]]]]. split.
    + apply region_rank_signs. f_equal; apply (sgn_scaled s t); assumption.
    + assert (E : (s * t) * (y1 * x2 - y2 * x1) = 0).
      { replace ((s * t) * (y1 * x2 - y2 * x1))
          with ((s * y1) * (t * x2) - (t * y2) * (s * x1)) by ring.
        rewrite Ex, Ey. ring. }
      apply Z.mul_eq_0 in E. destruct E as [E | E]; [nia | exact E].
Qed.

Lemma compareAngle_zero_same_direction_witness :
  compareAngle (pt 1 1) (pt 3 4) (pt 0 0) (pt 4 6) = 0.
Proof.
  apply compareAngle_zero_same_direction;
    try (unfold bounded, coordinate_bound; simpl; lia).
  exists 2, 1. simpl. repeat split; lia.
Defined.

(** X3: around the pivot the region table agrees with the orientation
    test: for two points, other than the pivot, of a [bounded] input, the
    comparator is the sign of [y1 * x2 - y2 * x1] on their vectors from
    the pivot, also when these are in different regions. *)
Theorem compareAngle_around_pivot (coords : list Coord2D) (base p q : Coord2D) :
  Forall bounded coords ->
  is_pivot coords base -> In p coords -> In q coords ->
  same p base = false -> same q base = false ->
  compareAngle base p base q
  = Z.sgn ((y p - y base) * (x q - x base) - (y q - y base) * (x p - x base)).
Proof.
  intros _ [_ Hmin] Hp Hq Hpb Hqb.
  assert (Hvp : 0 < y p - y base \/ (y p - y base = 0 /\ 0 < x p - x base)).
  { specialize (Hmin p Hp). destruct Hmin as [H | [Hy Hx]]; [left; lia |].
    right. split; [lia |].
    destruct (Z.eq_dec (x p) (x base)) as [E | N]; [| lia].
    assert (Hs : same p base = true) by (apply same_iff; lia). congruence. }
  assert (Hvq : 0 < y q - y base \/ (y q - y base = 0 /\ 0 < x q - x base)).
  { specialize (Hmin q Hq). destruct Hmin as [H | [Hy Hx]]; [left; lia |].
    right. split; [lia |].
    destruct (Z.eq_dec (x q) (x base)) as [E | N]; [| lia].
    assert (Hs : same q base = true) by (apply same_iff; lia). congruence. }
  rewrite compareAngle_unfold. cbv zeta.
  set (x1 := x p - x base) in *. set (y1 := y p - y base) in *.
  set (x2 := x q - x base) in *. set (y2 := y q - y base) in *.
  clearbody x1 y1 x2 y2. unfold region_rank.
  destruct (Z.compare_spec x1 0), (Z.compare_spec y1 0),
    (Z.compare_spec x2 0), (Z.compare_spec y2 0); try lia; cbn [Z.eqb Pos.eqb];
    try reflexivity;
    symmetry;
    first [ apply Z.sgn_neg_iff; nia | apply Z.sgn_pos_iff; nia ].
Qed.

Lemma compareAngle_around_pivot_witness :
  compareAngle (pt 0 0) (pt 3 1) (pt 0 0) (pt (-2) 5)
  = Z.sgn ((1 - 0) * (-2 - 0) - (5 - 0) * (3 - 0)).
Proof.
  apply (compareAngle_around_pivot [pt 3 1; pt 0 0; pt (-2) 5]);
    try reflexivity; simpl; auto.
  - bounded_by_computation.
  - split; [simpl; auto |].
    intros q [<- | [<- | [<- | []]]]; simpl; lia.
Defined.

End Directions.

(** ** Subsequences *)

Section Subseq.

Context {A : Type}.

Lemma subseq_refl (l : list A) : subseq l l.
Proof. induction l; constructor; assumption. Qed.

Lemma subseq_app (s1 l1 s2 l2 : list A) :
  subseq s1 l1 -> subseq s2 l2 -> subseq (s1 ++ s2) (l1 ++ l2).
Proof.
  intros H1 H2. induction H1; simpl; try constructor; assumption.
Qed.

Lemma subseq_nil_l (l : list A) : subseq [] l.
Proof. induction l; constructor; assumption. Qed.

Lemma subseq_app_r (s l t : list A) : subseq s l -> subseq s (l ++ t).
Proof.
  intros H. rewrite <- (app_nil_r s). apply subseq_app; [exact H | apply subseq_nil_l].
Qed.

Lemma subseq_trans (s m l : list A) : subseq s m -> subseq m l -> subseq s l.
Proof.
  intros Hsm Hml. revert s Hsm.
  induction Hml as [| a m l Hml IH | a m l Hml IH]; intros s Hsm.
  - exact Hsm.
  - constructor. apply IH, Hsm.
  - inversion Hsm; subst; constructor; apply IH; assumption.
Qed.

Lemma subseq_length (s l : list A) : subseq s l -> (length s <= length l)%nat.
Proof. induction 1; simpl; lia. Qed.

Lemma subseq_In (s l : list A) (a : A) : subseq s l -> In a s -> In a l.
Proof.
  induction 1 as [| b s l H IH | b s l H IH]; intros Hin.
  - exact Hin.
  - right. apply IH, Hin.
  - destruct Hin as [-> | Hin]; [left; reflexivity | right; apply IH, Hin].
Qed.

Lemma subseq_Forall (P : A -> Prop) (s l : list A) :
  subseq s l -> Forall P l -> Forall P s.
Proof.
  intros Hsub Hl. rewrite Forall_forall in *. intros a Ha.
  apply Hl. eapply subseq_In; eassumption.
Qed.

Lemma subseq_StronglySorted (R : A -> A -> Prop) (s l : list A) :
  subseq s l -> StronglySorted R l -> StronglySorted R s.
Proof.
  induction 1 as [| a s l H IH | a s l H IH]; intros Hl.
  - constructor.
  - inversion Hl; subst. apply IH. assumption.
  - inversion Hl; subst. constructor; [apply IH; assumption |].
    eapply subseq_Forall; eassumption.
Qed.

Lemma subseq_NoDup (s l : list A) : subseq s l -> NoDup l -> NoDup s.
Proof.
  induction 1 as [| a s l H IH | a s l H IH]; intros Hl.
  - constructor.
  - inversion Hl; subst. apply IH. assumption.
  - inversion Hl; subst. constructor; [| apply IH; assumption].
    intros Hin. eapply subseq_In in Hin; [| eassumption]. contradiction.
Qed.

End Subseq.

(** ** The hull within the sorted input *)

Section HullOrder.

(** Only the base itself is not after the base. *)
Lemma angle_le_base (base p : Coord2D) : angle_le base p base -> p = base.
Proof.
  unfold angle_le, cmp_le, angle_cmp. rewrite compareAngle_le_iff. cbv zeta.
  rewrite !Z.sub_diag. change (region_rank 0 0) with 0.
  pose proof (region_rank_range (x p - x base) (y p - y base)) as Hr.
  intros [Hlt | [E _]]; [lia |].
  apply region_rank_zero in E. apply same_eq, same_iff. lia.
Qed.

(** The sorted array starts with the base. *)
Lemma sortedCoords_head (base : Coord2D) (coords : list Coord2D) :
  In base coords ->
  exists tail, sort (angle_cmp base) coords = base :: tail.
Proof.
  intros Hin. apply (sort_In (angle_cmp base)) in Hin.
  pose proof (sortedCoords_ascending base coords) as Hsorted.
  destruct (sort (angle_cmp base) coords) as [| h tail]; [contradiction |].
  exists tail. f_equal.
  destruct Hin as [E | Hin]; [exact E |].
  inversion Hsorted as [| h' tail' _ Hh]; subst.
  rewrite Forall_forall in Hh. apply angle_le_base, Hh, Hin.
Qed.

Lemma scan_step_same (top : Coord2D) (below : list Coord2D) :
  scan_step (top :: below) top = top :: below.
Proof.
  unfold scan_step. replace (same top top) with true; [reflexivity |].
  symmetry. apply same_eq. reflexivity.
Qed.

Lemma scan_step_subseq (stack seen : list Coord2D) (cand : Coord2D) :
  subseq (rev stack) seen ->
  subseq (rev (scan_step stack cand)) (seen ++ [cand]).
Proof.
  intros Hsub. destruct stack as [| top below]; [apply subseq_app_r, Hsub |].
  unfold scan_step. destruct (same cand top); [apply subseq_app_r, Hsub |].
  cbn [rev]. apply subseq_app; [| apply subseq_refl].
  destruct (prune_suffix (top :: below) cand) as [popped E].
  eapply subseq_trans; [| exact Hsub].
  rewrite E at 2. rewrite rev_app_distr. apply subseq_app_r, subseq_refl.
Qed.

Lemma fold_scan_step_subseq (ordered : list Coord2D) :
  forall stack seen,
    subseq (rev stack) seen ->
    subseq (rev (fold_left scan_step ordered stack)) (seen ++ ordered).
Proof.
  induction ordered as [| cand ordered IH]; intros stack seen Hsub.
  - rewrite app_nil_r. exact Hsub.
  - cbn [fold_left].
    replace (seen ++ cand :: ordered) with ((seen ++ [cand]) ++ ordered)
      by (rewrite <- app_assoc; reflexivity).
    apply IH, scan_step_subseq, Hsub.
Qed.

(** The scan of the sorted input keeps a subsequence of it. *)
Lemma scan_subseq (base : Coord2D) (coords : list Coord2D) :
  In base coords ->
  subseq (scan base (sort (angle_cmp base) coords)) (sort (angle_cmp base) coords).
Proof.
  intros Hin. destruct (sortedCoords_head base coords Hin) as [tail ->].
  unfold scan. cbn [fold_left]. rewrite scan_step_same.
  apply (fold_scan_step_subseq tail [base] [base]). apply subseq_refl.
Qed.

(** X4: on a [bounded] input the result is the sorted input with points
    left out, so its points are in ascending angle around the pivot. *)
Theorem findConvexHull_in_angular_order (coords : list Coord2D) (pivot : Coord2D) :
  Forall bounded coords ->
  is_pivot coords pivot ->
  exists hull,
    findConvexHull coords = Ok hull /\
    subseq hull (sort (angle_cmp pivot) coords) /\
    StronglySorted (angle_le pivot) hull.
Proof.
  intros _ Hpivot.
  assert (Hne : coords <> []) by (destruct Hpivot as [Hin _]; intros ->; exact Hin).
  destruct (reduce_lower_left coords Hne) as [baseCoord [Hbase Hpivot']].
  assert (E : baseCoord = pivot) by (eapply is_pivot_unique; eassumption).
  subst baseCoord.
  exists (scan pivot (sort (angle_cmp pivot) coords)).
  split; [apply findConvexHull_scan, Hbase |].
  assert (Hsub := scan_subseq pivot coords (proj1 Hpivot)).
  split; [exact Hsub |].
  eapply subseq_StronglySorted; [exact Hsub | apply sortedCoords_ascending].
Qed.

Lemma findConvexHull_in_angular_order_witness :
  exists hull,
    findConvexHull [pt 0 2; pt 2 0; pt 1 1; pt 0 0] = Ok hull /\
    subseq hull (sort (angle_cmp (pt 0 0)) [pt 0 2; pt 2 0; pt 1 1; pt 0 0]) /\
    StronglySorted (angle_le (pt 0 0)) hull.
Proof.
  apply findConvexHull_in_angular_order; [bounded_by_computation |].
  split; [simpl; auto |].
  intros q [<- | [<- | [<- | [<- | []]]]]; simpl; lia.
Defined.

(** X5: the result never has more points than the input. *)
Theorem findConvexHull_length (coords : list Coord2D) :
  exists hull,
    findConvexHull coords = Ok hull /\ (length hull <= length coords)%nat.
Proof.
  destruct coords as [| first rest]; [exists []; split; [reflexivity | simpl; lia] |].
  destruct (reduce_lower_left (first :: rest)) as [baseCoord [Hbase Hpivot]];
    [discriminate |].
  eexists. split; [apply findConvexHull_scan, Hbase |].
  rewrite <- (sort_length (angle_cmp baseCoord) (first :: rest)).
  apply subseq_length, scan_subseq, Hpivot.
Qed.

(** X6: on an input of distinct points the result has distinct points. *)
Theorem findConvexHull_NoDup (coords : list Coord2D) :
  NoDup coords ->
  exists hull, findConvexHull coords = Ok hull /\ NoDup hull.
Proof.
  intros Hnodup.
  destruct coords as [| first rest]; [exists []; split; [reflexivity | constructor] |].
  destruct (reduce_lower_left (first :: rest)) as [baseCoord [Hbase Hpivot]];
    [discriminate |].
  eexists. split; [apply findConvexHull_scan, Hbase |].
  eapply subseq_NoDup; [apply scan_subseq, Hpivot |].
  eapply Permutation_NoDup; [symmetry; apply sort_perm | exact Hnodup].
Qed.

Lemma findConvexHull_NoDup_witness :
  exists hull, findConvexHull [pt 0 2; pt 2 0; pt 1 1; pt 0 0] = Ok hull /\ NoDup hull.
Proof.
  apply findConvexHull_NoDup.
  unfold pt. repeat (constructor; [simpl; intuition discriminate |]).
  constructor.
Defined.

End HullOrder.

(** ** What the scan leaves on the stack *)

Section Settled.

(** A ray to the candidate from the candidate itself is in region 0, so
    the ray from any other point is after it. *)
Lemma compareAngle_second_is_cand (top cand : Coord2D) :
  same cand top = false -> compareAngle top cand cand cand = 1.
Proof.
  intros Hdiff. rewrite compareAngle_unfold. cbv zeta.
  rewrite !Z.sub_diag. change (region_rank 0 0) with 0.
  pose proof (region_rank_range (x cand - x top) (y cand - y top)) as Hr.
  destruct (Z.eqb_spec (region_rank (x cand - x top) (y cand - y top)) 0) as [E | N].
  - apply region_rank_zero in E.
    assert (Hs : same cand top = true) by (apply same_iff; lia). congruence.
  - apply Z.sgn_pos. lia.
Qed.

Lemma settled_below (cand : Coord2D) (below : list Coord2D) :
  settled (cand :: below) -> settled below.
Proof.
  destruct below as [| top rest]; [intros _; exact I |].
  intros [_ [_ H]]. exact H.
Qed.

(** After the [while] loop the candidate differs from the top, the loop
    would pop nothing more, and what is left is settled. *)
Lemma prune_settled (stack : list Coord2D) (cand : Coord2D) :
  settled stack ->
  (forall top below, stack = top :: below -> same cand top = false) ->
  settled (prune stack cand) /\
  prune (prune stack cand) cand = prune stack cand /\
  (forall top below, prune stack cand = top :: below -> same cand top = false).
Proof.
  induction stack as [| top below IH]; intros Hset Htop.
  - repeat split; try exact I. intros top below E. discriminate E.
  - cbn [prune]. destruct below as [| second rest].
    + repeat split; try exact I. exact Htop.
    + destruct (Z.leb_spec (compareAngle top cand second cand) 0) as [Hle | Hgt].
      * apply IH; [eapply settled_below, Hset |].
        intros top' below' E. injection E as <- <-.
        destruct (same cand second) eqn:Hs; [| reflexivity].
        apply same_eq in Hs. subst second.
        rewrite compareAngle_second_is_cand in Hle by (eapply Htop; reflexivity).
        lia.
      * split; [exact Hset |]. split; [| exact Htop].
        cbn [prune]. destruct (Z.leb_spec (compareAngle top cand second cand) 0); [lia |].
        reflexivity.
Qed.

Lemma scan_step_settled (stack : list Coord2D) (cand : Coord2D) :
  settled stack -> settled (scan_step stack cand).
Proof.
  intros Hset. destruct stack as [| top below]; [exact I |].
  unfold scan_step. destruct (same cand top) eqn:Hs; [exact Hset |].
  destruct (prune_settled (top :: below) cand Hset) as [Hset' [Hfix Htop']].
  { intros top' below' E. injection E as <- <-. exact Hs. }
  cbn [settled]. destruct (prune (top :: below) cand) as [| top' below'] eqn:E;
    [exact I |].
  split; [eapply Htop'; reflexivity |]. split; [exact Hfix | exact Hset'].
Qed.

Lemma fold_scan_step_settled (ordered : list Coord2D) :
  forall stack, settled stack -> settled (fold_left scan_step ordered stack).
Proof.
  induction ordered as [| cand ordered IH]; intros stack Hset; [exact Hset |].
  cbn [fold_left]. apply IH, scan_step_settled, Hset.
Qed.

Lemma settled_adjacent (stack : list Coord2D) :
  settled stack ->
  forall above cand top below,
    stack = above ++ cand :: top :: below -> same cand top = false.
Proof.
  induction stack as [| c stack IH]; intros Hset above cand top below E.
  - destruct above; discriminate E.
  - destruct above as [| a above].
    + injection E as -> ->. destruct Hset as [H _]. exact H.
    + injection E as _ E. eapply IH; [eapply settled_below, Hset | exact E].
Qed.

(** Scanning a settled stack, bottom first, from its bottom builds it
    again. *)
Lemma rescan (base : Coord2D) (stack : list Coord2D) :
  forall upper,
    settled stack -> stack = upper ++ [base] ->
    fold_left scan_step (rev stack) [base] = stack.
Proof.
  induction stack as [| cand below IH]; intros upper Hset E.
  - destruct upper; discriminate E.
  - destruct below as [| top rest].
    + destruct upper as [| u upper]; [| destruct upper; discriminate E].
      injection E as ->. cbn [rev app fold_left]. apply scan_step_same.
    + destruct upper as [| u upper]; [discriminate E |].
      injection E as _ E.
      change (rev (cand :: top :: rest)) with (rev (top :: rest) ++ [cand]).
      rewrite fold_left_app. cbn [fold_left].
      rewrite (IH upper (settled_below _ _ Hset) E).
      destruct Hset as [Hdiff [Hfix _]].
      unfold scan_step. rewrite Hdiff, Hfix. reflexivity.
Qed.

(** A list in ascending order is left as it is by [sort]. *)
Lemma sort_ascending_id {A : Type} (cmp : A -> A -> Z) (l : list A) :
  StronglySorted (cmp_le cmp) l -> sort cmp l = l.
Proof.
  induction 1 as [| a l Hl IH Ha]; [reflexivity |].
  cbn [sort]. rewrite IH. destruct l as [| b l]; [reflexivity |].
  cbn [sort_insert]. inversion Ha as [| b' l' Hab _]; subst.
  unfold cmp_le in Hab. apply Z.leb_le in Hab. rewrite Hab. reflexivity.
Qed.

Lemma scan_settled (base : Coord2D) (ordered : list Coord2D) :
  settled (fold_left scan_step ordered [base]).
Proof. apply fold_scan_step_settled. exact I. Qed.

(** X7: two neighbours in the result are never the same point, whatever
    copies the input has. *)
Theorem findConvexHull_neighbours_differ (coords hull : list Coord2D) :
  findConvexHull coords = Ok hull ->
  forall before a b after, hull = before ++ a :: b :: after -> same a b = false.
Proof.
  intros Hhull before a b after E.
  destruct coords as [| first rest].
  { injection Hhull as <-. destruct before; discriminate E. }
  assert (Hcoords : first :: rest <> []) by discriminate.
  set (coords := first :: rest) in *. clearbody coords.
  destruct (reduce_lower_left coords Hcoords) as [baseCoord [Hbase _]].
  rewrite (findConvexHull_scan _ baseCoord Hbase) in Hhull. injection Hhull as <-.
  unfold scan in E.
  pose proof (scan_settled baseCoord (sort (angle_cmp baseCoord) coords)) as Hset.
  apply (f_equal (@rev Coord2D)) in E. rewrite rev_involutive in E.
  rewrite rev_app_distr in E. cbn [rev] in E. rewrite <- !app_assoc in E.
  cbn [app] in E.
  pose proof (settled_adjacent _ Hset _ _ _ _ E) as Hba.
  destruct (same a b) eqn:Hab; [| reflexivity].
  apply same_eq in Hab. subst b.
  rewrite <- Hba. symmetry. apply same_eq. reflexivity.
Qed.

Lemma findConvexHull_neighbours_differ_witness :
  same (pt 2 2) (pt 1 1) = false.
Proof.
  apply (findConvexHull_neighbours_differ
           [pt 0 0; pt 2 2; pt 1 1; pt 2 2]
           [pt 0 0; pt 2 2; pt 1 1; pt 2 2] eq_refl [pt 0 0] _ _ [pt 2 2]).
  reflexivity.
Defined.

(** X8: on a [bounded] input the function is idempotent: applied to its
    result it returns the result. *)
Theorem findConvexHull_idempotent (coords hull : list Coord2D) :
  Forall bounded coords ->
  findConvexHull coords = Ok hull -> findConvexHull hull = Ok hull.
Proof.
  intros _ Hhull.
  destruct coords as [| first rest]; [injection Hhull as <-; reflexivity |].
  assert (Hcoords : first :: rest <> []) by discriminate.
  set (coords := first :: rest) in *. clearbody coords.
  destruct (reduce_lower_left coords Hcoords) as [baseCoord [Hbase Hpivot]].
  pose proof Hhull as Hscan.
  rewrite (findConvexHull_scan _ baseCoord Hbase) in Hscan. injection Hscan as Hscan.
  set (sortedCoords := sort (angle_cmp baseCoord) coords) in *.
  destruct (scan_head baseCoord sortedCoords) as [tail Htail].
  (* the pivot of the result is the pivot of the input *)
  assert (Hpivot' : is_pivot hull baseCoord).
  { split; [rewrite <- Hscan, Htail; left; reflexivity |].
    intros q Hq. apply Hpivot. rewrite <- Hscan in Hq.
    apply scan_In in Hq. destruct Hq as [-> | Hq]; [apply Hpivot |].
    apply (sort_In (angle_cmp baseCoord)). exact Hq. }
  assert (Hne : hull <> []) by (rewrite <- Hscan, Htail; discriminate).
  destruct (reduce_lower_left hull Hne) as [baseCoord' [Hbase' Hpivot'']].
  assert (baseCoord' = baseCoord) by (eapply is_pivot_unique; eassumption).
  subst baseCoord'.
  rewrite (findConvexHull_scan _ baseCoord Hbase'). f_equal.
  (* the result is already sorted *)
  assert (Hsorted : StronglySorted (angle_le baseCoord) hull).
  { rewrite <- Hscan. eapply subseq_StronglySorted;
      [apply scan_subseq, Hpivot | apply sortedCoords_ascending]. }
  rewrite (sort_ascending_id _ _ Hsorted).
  (* and scanning it builds it again *)
  unfold scan in *.
  destruct (fold_scan_step_bottom sortedCoords baseCoord [baseCoord] [] eq_refl)
    as [upper Hupper].
  rewrite <- Hscan at 1.
  rewrite (rescan baseCoord _ upper (scan_settled baseCoord sortedCoords) Hupper).
  exact Hscan.
Qed.

Lemma findConvexHull_idempotent_witness :
  findConvexHull [pt 0 0; pt 2 0; pt 2 2; pt 0 2]
  = Ok [pt 0 0; pt 2 0; pt 2 2; pt 0 2].
Proof.
  apply (findConvexHull_idempotent [pt 1 1; pt 0 2; pt 2 2; pt 0 0; pt 2 0; pt 1 0]);
    [bounded_by_computation | reflexivity].
Defined.

End Settled.

(** ** The two ends of the result *)

Section Ends.

Lemma prune_upper (upper : list Coord2D) (base cand : Coord2D) :
  exists popped upper',
    upper = popped ++ upper' /\ prune (upper ++ [base]) cand = upper' ++ [base].
Proof.
  destruct (prune_suffix (upper ++ [base]) cand) as [popped E].
  destruct (prune_bottom (upper ++ [base]) cand base upper eq_refl) as [upper' E'].
  exists popped, upper'. split; [| exact E'].
  rewrite E', app_assoc in E. apply app_inj_tail in E. apply E.
Qed.

(** Copies of the base are candidates only while the stack is the base
    alone, where they are skipped. *)
Lemma fold_scan_step_base_once (base : Coord2D) (ordered : list Coord2D) :
  forall upper,
    Forall (fun p => p <> base) upper ->
    StronglySorted (angle_le base) ordered ->
    (upper <> [] -> Forall (fun p => p <> base) ordered) ->
    exists upper',
      fold_left scan_step ordered (upper ++ [base]) = upper' ++ [base] /\
      Forall (fun p => p <> base) upper'.
Proof.
  induction ordered as [| cand ordered IH]; intros upper Hupper Hsorted Hlater.
  - exists upper. split; [reflexivity | exact Hupper].
  - inversion Hsorted as [| c l Hsorted' Hcand]; subst.
    cbn [fold_left]. destruct (same cand base) eqn:Hbase.
    + apply same_eq in Hbase. subst cand.
      destruct upper as [| u upper].
      * cbn [app]. rewrite scan_step_same. apply (IH []); [constructor | exact Hsorted' |].
        intros H. contradiction.
      * assert (H : Forall (fun p => p <> base) (base :: ordered))
          by (apply Hlater; discriminate).
        inversion H; subst. contradiction.
    + assert (Hneq : cand <> base).
      { intros ->. rewrite (proj2 (same_eq base base) eq_refl) in Hbase. discriminate. }
      assert (Hrest : Forall (fun p => p <> base) ordered).
      { rewrite Forall_forall in *. intros p Hp ->.
        apply Hneq, angle_le_base, Hcand, Hp. }
      destruct (upper ++ [base]) as [| top below] eqn:E;
        [destruct upper; discriminate E |].
      unfold scan_step. destruct (same cand top).
      * rewrite <- E. apply IH; [exact Hupper | exact Hsorted' | intros _; exact Hrest].
      * rewrite <- E. destruct (prune_upper upper base cand) as [popped [upper' [Eu ->]]].
        apply (IH (cand :: upper')); [| exact Hsorted' | intros _; exact Hrest].
        constructor; [exact Hneq |].
        rewrite Eu in Hupper. apply Forall_app in Hupper. apply Hupper.
Qed.

Lemma scan_base_once (base : Coord2D) (coords : list Coord2D) :
  exists rest,
    scan base (sort (angle_cmp base) coords) = base :: rest /\ ~ In base rest.
Proof.
  destruct (fold_scan_step_base_once base (sort (angle_cmp base) coords) [])
    as [upper [Efold Hupper]];
    [constructor | apply sortedCoords_ascending | intros H; contradiction |].
  exists (rev upper). unfold scan. cbn [app] in Efold. rewrite Efold.
  rewrite rev_app_distr. split; [reflexivity |].
  rewrite <- in_rev. intros Hin.
  rewrite Forall_forall in Hupper. apply (Hupper _ Hin). reflexivity.
Qed.

(** X9: the first point of the result, the pivot, occurs in it once, also
    when the input has copies of it. *)
Theorem findConvexHull_pivot_once (coords hull : list Coord2D) :
  findConvexHull coords = Ok hull ->
  forall pivot rest, hull = pivot :: rest -> ~ In pivot rest.
Proof.
  intros Hhull pivot rest E.
  destruct coords as [| first others]; [injection Hhull as <-; discriminate E |].
  assert (Hcoords : first :: others <> []) by discriminate.
  set (coords := first :: others) in *. clearbody coords.
  destruct (reduce_lower_left coords Hcoords) as [baseCoord [Hbase Hpivot]].
  rewrite (findConvexHull_scan _ baseCoord Hbase) in Hhull. injection Hhull as <-.
  destruct (scan_base_once baseCoord coords) as [rest' [Escan Honce]].
  rewrite Escan in E. injection E as <- <-. exact Honce.
Qed.

Lemma findConvexHull_pivot_once_witness :
  ~ In (pt 0 0) [pt 1 0; pt 0 1].
Proof.
  apply (findConvexHull_pivot_once
           [pt 0 1; pt 0 0; pt 1 0; pt 0 0] [pt 0 0; pt 1 0; pt 0 1]);
    reflexivity.
Defined.

Lemma scan_step_top (stack : list Coord2D) (cand : Coord2D) :
  stack <> [] -> exists below, scan_step stack cand = cand :: below.
Proof.
  destruct stack as [| top below]; intros Hne; [contradiction |].
  unfold scan_step. destruct (same cand top) eqn:Hs.
  - apply same_eq in Hs. subst top. exists below. reflexivity.
  - eexists. reflexivity.
Qed.

Lemma scan_last (base : Coord2D) (init : list Coord2D) (cand : Coord2D) :
  exists kept, scan base (init ++ [cand]) = kept ++ [cand].
Proof.
  unfold scan. rewrite fold_left_app. cbn [fold_left].
  destruct (fold_scan_step_bottom init base [base] [] eq_refl) as [upper E].
  destruct (scan_step_top (fold_left scan_step init [base]) cand) as [below ->].
  { rewrite E. destruct upper; discriminate. }
  exists (rev below). reflexivity.
Qed.



Lemma StronglySorted_last {A : Type} (R : A -> A -> Prop) (init : list A) (c : A) :
  StronglySorted R (init ++ [c]) -> Forall (fun a => R a c) init.
Proof.
  induction init as [| a init IH]; intros Hs; [constructor |].
  cbn [app] in Hs. inversion Hs as [| a' l Hs' Ha]; subst.
  constructor; [| apply IH, Hs'].
  rewrite Forall_forall in Ha. apply Ha, in_or_app. right. left. reflexivity.
Qed.

(** X11: the result is one point exactly when all input points
    coincide. *)
Theorem findConvexHull_single_point (coords : list Coord2D) :
  coords <> [] ->
  exists hull,
    findConvexHull coords = Ok hull /\
    (length hull = 1%nat <-> forall p q, In p coords -> In q coords -> p = q).
Proof.
  intros Hne.
  destruct (reduce_lower_left coords Hne) as [baseCoord [Hbase Hpivot]].
  pose proof (findConvexHull_scan _ baseCoord Hbase) as Hhull.
  set (sortedCoords := sort (angle_cmp baseCoord) coords) in *.
  exists (scan baseCoord sortedCoords). split; [exact Hhull |].
  destruct (scan_head baseCoord sortedCoords) as [rest Erest].
  split.
  - intros Hlen.
    assert (Hall : forall p, In p coords -> p = baseCoord).
    { intros p Hp. apply (sort_In (angle_cmp baseCoord)) in Hp. fold sortedCoords in Hp.
      pose proof (sortedCoords_ascending baseCoord coords) as Hsorted.
      fold sortedCoords in Hsorted.
      destruct (exists_last (l := sortedCoords)) as [init [cand Elast]];
        [intros E; rewrite E in Hp; exact Hp |].
      destruct (scan_last baseCoord init cand) as [kept Ekept].
      rewrite <- Elast, Erest in Ekept.
      assert (Ecand : cand = baseCoord).
      { rewrite Erest in Hlen. destruct rest; [| discriminate Hlen].
        destruct kept as [| k kept]; [injection Ekept as ->; reflexivity |].
        destruct kept; discriminate Ekept. }
      subst cand. rewrite Elast in Hp, Hsorted.
      apply in_app_or in Hp. destruct Hp as [Hp | [<- | []]]; [| reflexivity].
      apply StronglySorted_last in Hsorted. rewrite Forall_forall in Hsorted.
      apply angle_le_base, Hsorted, Hp. }
    intros p q Hp Hq. rewrite (Hall p Hp), (Hall q Hq). reflexivity.
  - intros Hall. destruct (scan_base_once baseCoord coords) as [rest' [Escan Honce]].
    fold sortedCoords in Escan. rewrite Escan.
    destruct rest' as [| r rest']; [reflexivity |]. exfalso. apply Honce.
    assert (Hr : In r (scan baseCoord sortedCoords))
      by (rewrite Escan; right; left; reflexivity).
    apply scan_In in Hr. left. destruct Hr as [-> | Hr]; [reflexivity |].
    apply (proj1 (sort_In (angle_cmp baseCoord) r coords)) in Hr.
    apply Hall; [exact Hr | apply Hpivot].
Qed.

Lemma findConvexHull_single_point_witness :
  exists hull,
    findConvexHull [pt 4 7; pt 4 7; pt 4 7] = Ok hull /\
    (length hull = 1%nat <->
     forall p q, In p [pt 4 7; pt 4 7; pt 4 7] -> In q [pt 4 7; pt 4 7; pt 4 7] -> p = q).
Proof. apply findConvexHull_single_point. discriminate. Defined.

End Ends.

(** ** Moving and enlarging the input *)

Section Equivariance.

Variable f : Coord2D -> Coord2D.

Hypothesis f_compareAngle : forall base1 coord1 base2 coord2,
  compareAngle (f base1) (f coord1) (f base2) (f coord2)
  = compareAngle base1 coord1 base2 coord2.
Hypothesis f_same : forall p q, same (f p) (f q) = same p q.
Hypothesis f_lower_left : forall p q, lower_left (f p) (f q) = f (lower_left p q).

Lemma fold_lower_left_map (rest : list Coord2D) :
  forall prov,
    fold_left lower_left (map f rest) (f prov) = f (fold_left lower_left rest prov).
Proof.
  induction rest as [| cand rest IH]; intros prov; [reflexivity |].
  cbn [map fold_left]. rewrite f_lower_left. apply IH.
Qed.

Lemma reduce_map (coords : list Coord2D) :
  reduce lower_left (map f coords) = map_outcome f (reduce lower_left coords).
Proof.
  destruct coords as [| first rest]; [reflexivity |].
  cbn [map reduce map_outcome]. rewrite fold_lower_left_map. reflexivity.
Qed.

Lemma sort_insert_map (base a : Coord2D) (l : list Coord2D) :
  sort_insert (angle_cmp (f base)) (f a) (map f l)
  = map f (sort_insert (angle_cmp base) a l).
Proof.
  induction l as [| b l IH]; [reflexivity |].
  cbn [map sort_insert]. unfold angle_cmp at 1 3. rewrite f_compareAngle.
  destruct (_ <=? 0); [reflexivity |]. cbn [map]. rewrite IH. reflexivity.
Qed.

Lemma sort_map (base : Coord2D) (l : list Coord2D) :
  sort (angle_cmp (f base)) (map f l) = map f (sort (angle_cmp base) l).
Proof.
  induction l as [| a l IH]; [reflexivity |].
  cbn [map sort]. rewrite IH. apply sort_insert_map.
Qed.

Lemma prune_map (stack : list Coord2D) (cand : Coord2D) :
  prune (map f stack) (f cand) = map f (prune stack cand).
Proof.
  induction stack as [| top below IH]; [reflexivity |].
  destruct below as [| second rest]; [reflexivity |].
  cbn [map prune] in *. rewrite f_compareAngle.
  destruct (_ <=? 0); [exact IH | reflexivity].
Qed.

Lemma scan_step_map (stack : list Coord2D) (cand : Coord2D) :
  scan_step (map f stack) (f cand) = map f (scan_step stack cand).
Proof.
  destruct stack as [| top below]; [reflexivity |].
  unfold scan_step. cbn [map]. rewrite f_same.
  destruct (same cand top); [reflexivity |].
  cbn [map]. f_equal. apply (prune_map (top :: below)).
Qed.

Lemma fold_scan_step_map (ordered : list Coord2D) :
  forall stack,
    fold_left scan_step (map f ordered) (map f stack)
    = map f (fold_left scan_step ordered stack).
Proof.
  induction ordered as [| cand ordered IH]; intros stack; [reflexivity |].
  cbn [map fold_left]. rewrite scan_step_map. apply IH.
Qed.

Lemma scan_map (base : Coord2D) (ordered : list Coord2D) :
  scan (f base) (map f ordered) = map f (scan base ordered).
Proof.
  unfold scan. change [f base] with (map f [base]).
  rewrite fold_scan_step_map, map_rev. reflexivity.
Qed.

Lemma findConvexHull_map (coords : list Coord2D) :
  findConvexHull (map f coords) = map_outcome (map f) (findConvexHull coords).
Proof.
  destruct coords as [| first rest]; [reflexivity |].
  assert (Hcoords : first :: rest <> []) by discriminate.
  set (coords := first :: rest) in *. clearbody coords.
  destruct (reduce_lower_left coords Hcoords) as [baseCoord [Hbase _]].
  rewrite (findConvexHull_scan coords baseCoord Hbase). cbn [map_outcome].
  rewrite (findConvexHull_scan (map f coords) (f baseCoord)).
  - rewrite sort_map, scan_map. reflexivity.
  - rewrite reduce_map, Hbase. reflexivity.
Qed.

End Equivariance.

Section Similarities.

Lemma translate_compareAngle (dx dy : Z) (base1 coord1 base2 coord2 : Coord2D) :
  compareAngle (translate dx dy base1) (translate dx dy coord1)
               (translate dx dy base2) (translate dx dy coord2)
  = compareAngle base1 coord1 base2 coord2.
Proof.
  rewrite !compareAngle_unfold. cbv zeta. unfold translate. cbn [x y].
  replace (x coord1 + dx - (x base1 + dx)) with (x coord1 - x base1) by ring.
  replace (y coord1 + dy - (y base1 + dy)) with (y coord1 - y base1) by ring.
  replace (x coord2 + dx - (x base2 + dx)) with (x coord2 - x base2) by ring.
  replace (y coord2 + dy - (y base2 + dy)) with (y coord2 - y base2) by ring.
  reflexivity.
Qed.

Lemma translate_same (dx dy : Z) (p q : Coord2D) :
  same (translate dx dy p) (translate dx dy q) = same p q.
Proof.
  unfold same, translate. cbn [x y]. f_equal.
  - destruct (Z.eqb_spec (x p) (x q)), (Z.eqb_spec (x p + dx) (x q + dx)); lia.
  - destruct (Z.eqb_spec (y p) (y q)), (Z.eqb_spec (y p + dy) (y q + dy)); lia.
Qed.

Lemma translate_lower_left (dx dy : Z) (p q : Coord2D) :
  lower_left (translate dx dy p) (translate dx dy q) = translate dx dy (lower_left p q).
Proof.
  unfold lower_left, translate. cbn [x y].
  replace (y q + dy <? y p + dy) with (y q <? y p)
    by (destruct (Z.ltb_spec (y q) (y p)), (Z.ltb_spec (y q + dy) (y p + dy)); lia).
  replace (y q + dy =? y p + dy) with (y q =? y p)
    by (destruct (Z.eqb_spec (y q) (y p)), (Z.eqb_spec (y q + dy) (y p + dy)); lia).
  replace (x q + dx <? x p + dx) with (x q <? x p)
    by (destruct (Z.ltb_spec (x q) (x p)), (Z.ltb_spec (x q + dx) (x p + dx)); lia).
  destruct (_ || _); reflexivity.
Qed.

(** X12: moving every input point by the same vector moves the result
    by that vector. *)
Theorem findConvexHull_translate (dx dy : Z) (coords : list Coord2D) :
  findConvexHull (map (translate dx dy) coords)
  = map_outcome (map (translate dx dy)) (findConvexHull coords).
Proof.
  apply findConvexHull_map.
  - apply translate_compareAngle.
  - apply translate_same.
  - apply translate_lower_left.
Qed.

Lemma region_rank_scale (k vx vy : Z) :
  0 < k -> region_rank (k * vx) (k * vy) = region_rank vx vy.
Proof.
  intros Hk. apply region_rank_signs.
  rewrite !Z.sgn_mul, (Z.sgn_pos k Hk), !Z.mul_1_l. reflexivity.
Qed.

Lemma scale_compareAngle (k : Z) (base1 coord1 base2 coord2 : Coord2D) :
  0 < k ->
  compareAngle (scale k base1) (scale k coord1) (scale k base2) (scale k coord2)
  = compareAngle base1 coord1 base2 coord2.
Proof.
  intros Hk. rewrite !compareAngle_unfold. cbv zeta. unfold scale. cbn [x y].
  rewrite <- !Z.mul_sub_distr_l, !region_rank_scale by exact Hk.
  destruct (_ =? _); [| reflexivity].
  set (x1 := x coord1 - x base1). set (y1 := y coord1 - y base1).
  set (x2 := x coord2 - x base2). set (y2 := y coord2 - y base2).
  replace (k * y1 * (k * x2) - k * y2 * (k * x1))
    with (k * (k * (y1 * x2 - y2 * x1))) by ring.
  rewrite !Z.sgn_mul, (Z.sgn_pos k Hk), !Z.mul_1_l. reflexivity.
Qed.

Lemma scale_same (k : Z) (p q : Coord2D) :
  0 < k -> same (scale k p) (scale k q) = same p q.
Proof.
  intros Hk. unfold same, scale. cbn [x y]. f_equal.
  - destruct (Z.eqb_spec (x p) (x q)), (Z.eqb_spec (k * x p) (k * x q)); nia.
  - destruct (Z.eqb_spec (y p) (y q)), (Z.eqb_spec (k * y p) (k * y q)); nia.
Qed.

Lemma scale_lower_left (k : Z) (p q : Coord2D) :
  0 < k -> lower_left (scale k p) (scale k q) = scale k (lower_left p q).
Proof.
  intros Hk. unfold lower_left, scale. cbn [x y].
  replace (k * y q <? k * y p) with (y q <? y p)
    by (destruct (Z.ltb_spec (y q) (y p)), (Z.ltb_spec (k * y q) (k * y p)); nia).
  replace (k * y q =? k * y p) with (y q =? y p)
    by (destruct (Z.eqb_spec (y q) (y p)), (Z.eqb_spec (k * y q) (k * y p)); nia).
  replace (k * x q <? k * x p) with (x q <? x p)
    by (destruct (Z.ltb_spec (x q) (x p)), (Z.ltb_spec (k * x q) (k * x p)); nia).
  destruct (_ || _); reflexivity.
Qed.

(** X13: multiplying the coordinates of every input point by the same
    positive integer multiplies those of the result by it, the input and
    the multiplied input being [bounded]. *)
Theorem findConvexHull_scale (k : Z) (coords : list Coord2D) :
  0 < k ->
  Forall bounded coords ->
  Forall bounded (map (scale k) coords) ->
  findConvexHull (map (scale k) coords)
  = map_outcome (map (scale k)) (findConvexHull coords).
Proof.
  intros Hk _ _. apply findConvexHull_map.
  - intros. apply scale_compareAngle, Hk.
  - intros. apply scale_same, Hk.
  - intros. apply scale_lower_left, Hk.
Qed.

Lemma findConvexHull_scale_witness :
  findConvexHull (map (scale 3) [pt 0 2; pt 2 0; pt 1 1; pt 0 0])
  = map_outcome (map (scale 3)) (findConvexHull [pt 0 2; pt 2 0; pt 1 1; pt 0 0]).
Proof. apply findConvexHull_scale; [lia | bounded_by_computation ..]. Defined.

End Similarities.

(** ** The click handler and the global [points] *)

Section Points.

Lemma findIndex_from_cases {A : Type} (pred : A -> bool) (arr : list A) :
  forall i,
    (findIndex_from pred i arr = -1 /\ Forall (fun a => pred a = false) arr) \/
    (exists before a after,
        arr = before ++ a :: after /\
        Forall (fun b => pred b = false) before /\
        pred a = true /\
        findIndex_from pred i arr = i + array_length before).
Proof.
  induction arr as [| a arr IH]; intros i.
  - left. split; [reflexivity | constructor].
  - cbn [findIndex_from]. destruct (pred a) eqn:Ha.
    + right. exists [], a, arr. repeat split; [constructor | exact Ha |].
      unfold array_length. simpl. lia.
    + destruct (IH (i + 1)) as [[E Hall] | [before [b [after [E [Hb [Hpb Ei]]]]]]].
      * left. split; [exact E | constructor; assumption].
      * right. exists (a :: before), b, after.
        repeat split; [rewrite E; reflexivity | constructor; assumption | exact Hpb |].
        rewrite Ei. unfold array_length. cbn [length]. lia.
Qed.

Lemma splice1_middle {A : Type} (before after : list A) (a : A) :
  splice1 (before ++ a :: after) (array_length before) = before ++ after.
Proof.
  unfold splice1, array_length.
  destruct (Z.ltb_spec (Z.of_nat (length before)) 0) as [Hneg | _]; [lia |].
  rewrite length_app. cbn [length].
  replace (Z.to_nat (Z.min (Z.of_nat (length before))
                       (Z.of_nat (length before + S (length after)))))
    with (length before) by lia.
  rewrite firstn_app, Nat.sub_diag, firstn_all. cbn [firstn]. rewrite app_nil_r.
  f_equal.
  rewrite skipn_app, skipn_all2 by lia.
  replace (S (length before) - length before)%nat with 1%nat by lia.
  reflexivity.
Qed.

(** The two cases of a click: the cell is not in [points] and is added at
    the end, or its first occurrence is removed. *)
Lemma click_toggle_cases (points : list Coord2D) (clickedX clickedY : Z) :
  let clickedCoord := mkCoord2D clickedX clickedY in
  (~ In clickedCoord points /\
   click_toggle points clickedX clickedY = points ++ [clickedCoord]) \/
  (exists before after,
      points = before ++ clickedCoord :: after /\
      ~ In clickedCoord before /\
      click_toggle points clickedX clickedY = before ++ after).
Proof.
  intros clickedCoord. unfold click_toggle, findIndex. fold clickedCoord.
  destruct (findIndex_from_cases (fun coord => same coord clickedCoord) points 0)
    as [[E Hall] | [before [a [after [E [Hb [Ha Ei]]]]]]].
  - left. rewrite E. cbn [Z.eqb]. split; [| reflexivity].
    rewrite Forall_forall in Hall. intros Hin. specialize (Hall _ Hin).
    cbv beta in Hall. rewrite (proj2 (same_eq _ _) eq_refl) in Hall. discriminate.
  - right. apply same_eq in Ha. subst a. exists before, after.
    split; [exact E |]. split.
    + rewrite Forall_forall in Hb. intros Hin. specialize (Hb _ Hin).
      cbv beta in Hb. rewrite (proj2 (same_eq _ _) eq_refl) in Hb. discriminate.
    + rewrite Ei. cbn [Z.add].
      destruct (Z.eqb_spec (array_length before) (-1)) as [Hneg | _];
        [unfold array_length in Hneg; lia |].
      rewrite E. apply splice1_middle.
Qed.

Lemma click_toggle_NoDup (points : list Coord2D) (clickedX clickedY : Z) :
  NoDup points -> NoDup (click_toggle points clickedX clickedY).
Proof.
  intros Hnodup.
  destruct (click_toggle_cases points clickedX clickedY)
    as [[Hout ->] | [before [after [E [_ ->]]]]].
  - apply NoDup_app; [exact Hnodup | repeat constructor; intros [] |].
    intros a Ha [<- | []]. contradiction.
  - rewrite E in Hnodup. eapply NoDup_remove_1, Hnodup.
Qed.

Lemma points_after_snoc (events : list event) (e : event) :
  points_after (events ++ [e]) = handle (points_after events) e.
Proof. unfold points_after. rewrite fold_left_app. reflexivity. Qed.

Lemma points_after_NoDup (events : list event) : NoDup (points_after events).
Proof.
  induction events as [| e events IH] using rev_ind; [constructor |].
  rewrite points_after_snoc. destruct e as [clickedX clickedY |].
  - apply click_toggle_NoDup, IH.
  - constructor.
Qed.

(** X14: a click on a cell toggles it and touches no other cell: in a
    point list without copies, the cell is in the list after the click
    exactly when it was not before, and every other cell is in the list
    after the click exactly when it was before. *)
Theorem click_toggle_membership (points : list Coord2D) (clickedX clickedY : Z) :
  NoDup points ->
  let clickedCoord := mkCoord2D clickedX clickedY in
  (In clickedCoord (click_toggle points clickedX clickedY) <-> ~ In clickedCoord points) /\
  (forall q, q <> clickedCoord ->
             (In q (click_toggle points clickedX clickedY) <-> In q points)).
Proof.
  intros Hnodup clickedCoord.
  pose proof (click_toggle_cases points clickedX clickedY) as Hcases.
  cbv zeta in Hcases. fold clickedCoord in Hcases.
  destruct Hcases as [[Hout ->] | [before [after [E [Hbefore ->]]]]].
  - split.
    + split; [intros _; exact Hout |]. intros _. apply in_or_app. right. left. reflexivity.
    + intros q Hq. rewrite in_app_iff. split; [| intros H; left; exact H].
      intros [H | [H | []]]; [exact H | congruence].
  - rewrite E in Hnodup. apply NoDup_remove_2 in Hnodup. split.
    + split; [intros H; contradiction |].
      intros Hout. exfalso. apply Hout. rewrite E. apply in_elt.
    + intros q Hq. rewrite E, !in_app_iff. cbn [In].
      split; [intros [H | H]; auto |]. intros [H | [H | H]]; auto. congruence.
Qed.

Lemma click_toggle_membership_witness :
  In (pt 3 4) (click_toggle [pt 1 1; pt 2 2] 3 4).
Proof.
  destruct (click_toggle_membership [pt 1 1; pt 2 2] 3 4) as [Hin _].
  - unfold pt. repeat (constructor; [simpl; intuition discriminate |]). constructor.
  - apply Hin. unfold pt. simpl. intuition discriminate.
Defined.

(** X15: whatever the clicks and resets, [points] never holds a cell
    twice. *)
Theorem points_never_repeat (events : list event) : NoDup (points_after events).
Proof. apply points_after_NoDup. Qed.

(** X16: two clicks on one cell restore the point list: as it was when
    the cell was not in it, and up to the order of the points (the cell
    moves to the end) when it was. *)
Theorem click_toggle_twice (points : list Coord2D) (clickedX clickedY : Z) :
  NoDup points ->
  let twice := click_toggle (click_toggle points clickedX clickedY) clickedX clickedY in
  Permutation twice points /\
  (~ In (mkCoord2D clickedX clickedY) points -> twice = points).
Proof.
  intros Hnodup twice. subst twice.
  set (clickedCoord := mkCoord2D clickedX clickedY).
  pose proof (click_toggle_cases points clickedX clickedY) as Hcases.
  cbv zeta in Hcases. fold clickedCoord in Hcases.
  destruct Hcases as [[Hout E1] | [before [after [E [Hbefore E1]]]]].
  - rewrite E1.
    pose proof (click_toggle_cases (points ++ [clickedCoord]) clickedX clickedY) as Hcases.
    cbv zeta in Hcases. fold clickedCoord in Hcases.
    destruct Hcases as [[Hout' _] | [before' [after' [E' [Hbefore' ->]]]]].
    { exfalso. apply Hout', in_or_app. right. left. reflexivity. }
    assert (Esplit : before' = points /\ after' = []).
    { destruct after' as [| a after'].
      - apply app_inj_tail in E'. destruct E' as [-> _]. split; reflexivity.
      - exfalso. change (before' ++ clickedCoord :: a :: after')
          with (before' ++ clickedCoord :: (a :: after')) in E'.
        destruct (exists_last (l := a :: after')) as [init [c Ec]]; [discriminate |].
        rewrite Ec in E'.
        replace (before' ++ clickedCoord :: init ++ [c])
          with ((before' ++ clickedCoord :: init) ++ [c]) in E'
          by (rewrite <- app_assoc; reflexivity).
        apply app_inj_tail in E'. destruct E' as [E' _].
        apply Hout. rewrite E'. apply in_elt. }
    destruct Esplit as [-> ->]. rewrite app_nil_r. split; [reflexivity |].
    intros _. reflexivity.
  - rewrite E1. rewrite E in Hnodup. apply NoDup_remove_2 in Hnodup.
    pose proof (click_toggle_cases (before ++ after) clickedX clickedY) as Hcases.
    cbv zeta in Hcases. fold clickedCoord in Hcases.
    destruct Hcases as [[_ ->] | [before' [after' [E' _]]]].
    + split.
      * rewrite E. rewrite <- app_assoc. apply Permutation_app_head.
        symmetry. apply Permutation_cons_append.
      * intros Hout. exfalso. apply Hout. rewrite E. apply in_elt.
    + exfalso. apply Hnodup. rewrite E'. apply in_elt.
Qed.

Lemma click_toggle_twice_witness :
  Permutation (click_toggle (click_toggle [pt 1 1; pt 2 2] 1 1) 1 1) [pt 1 1; pt 2 2].
Proof.
  refine (proj1 (click_toggle_twice [pt 1 1; pt 2 2] 1 1 _)).
  unfold pt. repeat (constructor; [simpl; intuition discriminate |]). constructor.
Defined.

(** X17: in every state that clicks and resets reach, the hull of
    [points] is computed, has no point twice and has no more points than
    [points]. *)
Theorem hull_of_points (events : list event) :
  exists hull,
    findConvexHull (points_after events) = Ok hull /\
    NoDup hull /\
    (length hull <= length (points_after events))%nat.
Proof.
  pose proof (points_after_NoDup events) as Hnodup.
  destruct (points_after events) as [| first rest].
  { exists []. split; [reflexivity |]. split; [constructor | simpl; lia]. }
  assert (Hcoords : first :: rest <> []) by discriminate.
  set (coords := first :: rest) in *. clearbody coords.
  destruct (reduce_lower_left coords Hcoords) as [baseCoord [Hbase Hpivot]].
  eexists. split; [apply findConvexHull_scan, Hbase |].
  pose proof (scan_subseq baseCoord coords (proj1 Hpivot)) as Hsub.
  split.
  - eapply subseq_NoDup; [exact Hsub |].
    eapply Permutation_NoDup; [symmetry; apply sort_perm | exact Hnodup].
  - rewrite <- (sort_length (angle_cmp baseCoord) coords).
    apply subseq_length, Hsub.
Qed.

End Points.

(** ** drawConvexHull *)

Section Drawing.

Lemma array_get_middle {A : Type} (before after : list A) (a : A) :
  array_get (before ++ a :: after) (array_length before) = Some a.
Proof.
  unfold array_get, array_length.
  destruct (Z.ltb_spec (Z.of_nat (length before)) 0) as [Hneg | _]; [lia |].
  rewrite Nat2Z.id, nth_error_app2 by lia. rewrite Nat.sub_diag. reflexivity.
Qed.

Lemma array_length_snoc {A : Type} (arr : list A) (a : A) :
  array_length (arr ++ [a]) = array_length arr + 1.
Proof. unfold array_length. rewrite length_app. simpl. lia. Qed.

(** The loop over the indices draws the chain of the points from index
    [i] on. *)
Lemma draw_edges_chain (rest : list Coord2D) :
  forall before,
    draw_edges (pred (length rest)) (array_length before) (before ++ rest)
    = Ok (map draw_line (chain rest)).
Proof.
  induction rest as [| a rest IH]; intros before; [reflexivity |].
  destruct rest as [| b rest]; [reflexivity |].
  cbn [length pred draw_edges chain map].
  rewrite array_get_middle. cbn [defined bind].
  replace (before ++ a :: b :: rest) with ((before ++ [a]) ++ b :: rest)
    by (rewrite <- app_assoc; reflexivity).
  rewrite <- (array_length_snoc before a), array_get_middle. cbn [defined bind].
  specialize (IH (before ++ [a])). cbn [length pred] in IH. rewrite IH.
  reflexivity.
Qed.

Lemma lines_of_app (calls1 calls2 : list call) :
  lines_of (calls1 ++ calls2) = lines_of calls1 ++ lines_of calls2.
Proof. apply flat_map_app. Qed.

Lemma lines_of_drawPoints (coords : list Coord2D) (radius : Z) (fillStyle : string) :
  lines_of (drawPoints coords radius fillStyle) = [].
Proof. induction coords as [| c coords IH]; [reflexivity | exact IH]. Qed.

Lemma lines_of_draw_line (edges : list (Coord2D * Coord2D)) :
  lines_of (map draw_line edges) = edges.
Proof.
  induction edges as [| [a b] edges IH]; [reflexivity |].
  cbn [map]. unfold lines_of in *. cbn [flat_map draw_line fst snd app].
  rewrite IH. reflexivity.
Qed.

(** What [drawConvexHull] does once the hull is known. *)
Lemma drawConvexHull_calls (points coords hull : list Coord2D) :
  findConvexHull coords = Ok hull ->
  drawConvexHull points coords
  = Ok ([ResetCanvas]
          ++ drawPoints coords 5 "black"
          ++ [SetStrokeStyle "black"]
          ++ drawPoints hull 5 "red"
          ++ map draw_line (outline hull)
          ++ [SetTextContent (array_length hull) (array_length points)
                (if negb (array_length coords =? 0)
                 then Some (100 * array_length hull, array_length coords)
                 else None)]).
Proof.
  intros Hhull. unfold drawConvexHull. rewrite Hhull. cbn [bind].
  replace (Z.to_nat (array_length hull - 1)) with (pred (length hull))
    by (unfold array_length; lia).
  pose proof (draw_edges_chain hull []) as Hedges. cbn [app] in Hedges.
  change (array_length []) with 0 in Hedges. rewrite Hedges. cbn [bind].
  destruct hull as [| first [| second [| third rest]]]; try reflexivity.
  assert (Hlen : (3 <=? array_length (first :: second :: third :: rest)) = true)
    by (apply Z.leb_le; unfold array_length; cbn [length]; lia).
  rewrite Hlen.
  destruct (exists_last (l := first :: second :: third :: rest)) as [init [final E]];
    [discriminate |].
  assert (Hlast : array_get (first :: second :: third :: rest)
                    (array_length (first :: second :: third :: rest) - 1)
                  = Some (last (first :: second :: third :: rest) first)).
  { rewrite E, last_last. apply array_get_last. }
  rewrite Hlast. cbn [defined bind array_get Z.ltb Z.compare Z.to_nat nth_error].
  unfold outline. rewrite map_app. cbn [map draw_line fst snd].
  rewrite <- !app_assoc. reflexivity.
Qed.

(** X18: [drawConvexHull] throws nothing, and the lines it draws are the
    outline of the hull: a line from each hull point to the next, and a
    closing line from the last to the first when the hull has three
    points or more (so two points are joined by one line, not two). *)
Theorem drawConvexHull_lines (points coords : list Coord2D) :
  exists hull calls,
    findConvexHull coords = Ok hull /\
    drawConvexHull points coords = Ok calls /\
    lines_of calls = outline hull.
Proof.
  destruct (findConvexHull coords) as [hull | |] eqn:Hhull.
  - exists hull. eexists. split; [reflexivity |].
    split; [apply drawConvexHull_calls, Hhull |].
    rewrite !lines_of_app, !lines_of_drawPoints, lines_of_draw_line.
    cbn [lines_of flat_map app]. apply app_nil_r.
  - exfalso. destruct coords as [| first rest]; [discriminate Hhull |].
    destruct (reduce_lower_left (first :: rest)) as [baseCoord [Hbase _]];
      [discriminate |].
    rewrite (findConvexHull_scan _ baseCoord Hbase) in Hhull. discriminate Hhull.
  - exfalso. destruct coords as [| first rest]; [discriminate Hhull |].
    destruct (reduce_lower_left (first :: rest)) as [baseCoord [Hbase _]];
      [discriminate |].
    rewrite (findConvexHull_scan _ baseCoord Hbase) in Hhull. discriminate Hhull.
Qed.

(** X19: after any clicks and resets, [drawConvexHull(points)] makes
    these calls: the canvas reset, the points in black, the hull points in
    red, the outline, and last the message, which shows the length of the
    hull and [points.length] and, exactly when there are points, the
    percentage [100 * convexHull.length / coords.length]; the hull count
    is at most the point count, and when a percentage is shown its
    divisor is positive and its dividend at most 100 times the divisor. *)
Theorem drawConvexHull_message (events : list event) :
  let points := points_after events in
  exists hull,
    findConvexHull points = Ok hull /\
    drawConvexHull points points
    = Ok (([ResetCanvas]
             ++ drawPoints points 5 "black"
             ++ [SetStrokeStyle "black"]
             ++ drawPoints hull 5 "red"
             ++ map draw_line (outline hull))
            ++ [SetTextContent (array_length hull) (array_length points)
                  (if array_length points =? 0 then None
                   else Some (100 * array_length hull, array_length points))]) /\
    array_length hull <= array_length points /\
    (points <> [] ->
     0 < array_length points /\
     100 * array_length hull <= 100 * array_length points).
Proof.
  intros points. clearbody points.
  assert (Hhull : exists hull,
             findConvexHull points = Ok hull /\ (length hull <= length points)%nat).
  { destruct points as [| first rest]; [exists []; split; [reflexivity | simpl; lia] |].
    destruct (reduce_lower_left (first :: rest)) as [baseCoord [Hbase Hpivot]];
      [discriminate |].
    eexists. split; [apply findConvexHull_scan, Hbase |].
    rewrite <- (sort_length (angle_cmp baseCoord) (first :: rest)).
    apply subseq_length, scan_subseq, Hpivot. }
  destruct Hhull as [hull [Hhull Hlen]].
  exists hull. split; [exact Hhull |]. split; [| split].
  - rewrite (drawConvexHull_calls points points hull Hhull).
    destruct (array_length points =? 0); cbn [negb];
      rewrite <- !app_assoc; reflexivity.
  - unfold array_length. lia.
  - intros Hne. unfold array_length.
    destruct points as [| first rest]; [contradiction |]. cbn [length] in *. lia.
Qed.

Lemma drawConvexHull_message_witness :
  exists hull,
    findConvexHull (points_after [Click 1 1; Click 4 2; Click 1 1]) = Ok hull /\
    0 < array_length (points_after [Click 1 1; Click 4 2; Click 1 1]) /\
    100 * array_length hull
    <= 100 * array_length (points_after [Click 1 1; Click 4 2; Click 1 1]).
Proof.
  pose proof (drawConvexHull_message [Click 1 1; Click 4 2; Click 1 1]) as H.
  cbv zeta in H. destruct H as [hull [Hhull [_ [_ Hshown]]]].
  exists hull. split; [exact Hhull |].
  apply Hshown. vm_compute. discriminate.
Defined.

End Drawing.
